(* ===== verification/_CoqProject ===== *)
-Q . S2P
Spec2Rocq.v
Types.v
Translator.v
Store.v
Forms.v
Bubble.v
Session.v
Languages.v
Screens.v
Settled.v
Clock.v
Quiescence.v
PairMachine.v
Scenarios.v
