(* ===== verification/Spec2Rocq.v ===== *)
(** * PolyglotChat: a verification development

    The repository is a single-tab React chat demo (PolyglotChat) in which
    every message is shown to the viewer in the viewer's native language,
    translated on demand by a text-generation API and cached on the message.
    This development models the program's logic and what its screens show
    as Rocq definitions over stdpp's strings, lists and finite maps, and
    proves what makes the translation cache correct and where it is not.

    ** The program and how its parts interact

    - [src/types.ts]: the records [User], [Message] (with its
      [translations] cache, a [Record<string,string>]) and [LanguageOption],
      and the constant [SUPPORTED_LANGUAGES].
    - [src/services/gemini.ts]: [translateText], the only call to the outside
      world.  It builds a prompt, awaits the provider, returns
      [response.text?.trim() || text] and falls back to [text] on a rejected
      promise (fail-soft).
    - [src/App.tsx]: the store.  React state [currentUser] and [messages],
      handlers [handleJoin] (appends a system welcome message),
      [handleSendMessage] (appends the user's message, seeds its own
      language, and schedules a bot reply with [setTimeout] when the log held
      exactly five messages), [handleUpdateMessage] (replaces every message
      with the updated message's id) and the logout callback.
    - [src/components/JoinScreen.tsx]: the join form; [handleSubmit] trims
      the nickname, refuses an empty one and builds the [User] from the
      highlighted language button.
    - [src/components/ChatRoom.tsx]: the chat form; [handleSend] trims the
      input, refuses an empty one, forwards it and clears the field; the
      send button is disabled on a blank input.  It mounts one
      [MessageBubble] per message, keyed by the message id.
    - [src/components/MessageBubble.tsx]: the orchestrator.  [displayedText]
      and [needsTranslation] decide what to show and whether to translate;
      the effect sets [isTranslating], awaits [translateText] and writes the
      result back through [onUpdate] (= [handleUpdateMessage]) as a copy of
      the message *as it was when the request started*.

    ** Files

    - [Spec2Rocq.v] (this file): the prelude.  JavaScript's string
      truthiness and [||] on strings, [Number.prototype.toString], the
      replace-by-predicate map that [handleUpdateMessage] uses, invariant
      induction over [rtc], the tactics [invc] and [case_streq], and the
      hint databases [chat] and [chat_rw].
    - [Types.v]: the records of [src/types.ts] and the well-formedness
      predicates on messages shared by the other files.
    - [Translator.v]: [gemini.ts].  JavaScript [String.prototype.trim] on the
      ASCII white space, the provider's outcome as an inductive
      ([GenResolved (Some t)], [GenResolved None] for an absent
      [response.text], [GenRejected] for a thrown error), [translateText],
      the prompt, and the class [Translator] of fail-soft translators
      that the orchestrator's theorems are proved against.
    - [Store.v]: [App.tsx] as a record [AppState] with one function per
      handler, and the abstract Conversation Store of the spec (append-only
      log, insert-if-absent translation update) with the refinement lemma
      relating [handleUpdateMessage] to it.
    - [Forms.v]: [JoinScreen.handleSubmit] and [ChatRoom.handleSend] with
      their form states.
    - [Bubble.v]: [MessageBubble.tsx]: [displayedText], [needsTranslation],
      the effect as a function returning the translation request it starts,
      the write-back, and the rendered view (pending indicator,
      "Translated from" badge).
    - [Session.v]: the composition.  A session state holds the App state,
      both form states, the set of mounted bubbles whose [isTranslating] is
      set, the mount generation of the ChatRoom, the promises in flight and
      the log of every call made to the translator.  [step] is an
      executable function from a state and a UI or environment event
      (typing, submitting, clicking, a bubble's effect running, a timer
      firing, a promise resolving) to the next state, [None] when the event
      cannot happen in that state (no ChatRoom is mounted, no timer is
      pending, ...).  Reachability is [rtc] of [step].  [step_view] lists
      what each event does when it happens; the invariant proofs of all
      files do their case analysis on it.  [Session.v] also holds the
      invariant [session_inv] of every reachable state and the invariant
      [fresh_inv] of executions in which random ids are fresh.
    - [Languages.v]: the registry invariant [lang_inv]: every language code
      the program holds comes from [SUPPORTED_LANGUAGES].
    - [Screens.v]: the markup of [JoinScreen] and [ChatRoom] and [App]'s
      choice between them as view values ([renderJoinScreen],
      [renderChatRoom], [renderApp]; the bubble's view is [renderBubble]
      of [Bubble.v]).
    - [Settled.v]: the settled executions, where fresh ids are used and the
      user logs out only when no request is in flight, with the invariant
      [settled_inv] and the executable checker [run_settled] that decides
      whether a concrete trace is one.
    - [Clock.v]: executions where [Date.now()] does not go back, and the
      time order of the log.
    - [Quiescence.v]: the steps no user causes ([env_step]: effects that
      start a call, calls settling, the bot's timer), the bound on the
      number of calls and the termination and liveness of those steps.
    - [PairMachine.v]: the spec's per-(message, language) state machine
      [UNNEEDED -> NEEDED -> IN_FLIGHT -> CACHED], the abstraction function
      [pair_state] from a session to it, and the simulation theorem.
    - [Scenarios.v]: concrete traces evaluated by [vm_compute]: the two
      scenarios of the spec, runs that exhibit the stale write-back, the
      rejoin and the id collision, and the witnesses of the general
      theorems (each applies its theorem at a concrete state).

    ** What is proved (see PROJECT.json for the claim list)

    - Translator: [translateText] on every outcome of the provider (the
      input text on a rejected call, an absent answer or an all-blank
      answer; the trimmed answer otherwise), and it never returns the
      empty string for a non-empty text.  The lemmas on [trim] it rests on
      are library lemmas of [Translator.v].
    - Store: the handlers' behaviour on every branch (logged out, bot
      scheduling at length five, replacement of every message sharing an
      id), the bot is scheduled at most once, and [handleUpdateMessage]
      overwrites a cached translation where the spec asks for
      insert-if-absent.
    - Forms and screens: what reaches the store is trimmed and non-empty;
      the language button clicked is the one highlighted and the one the
      joined user gets; the send button is enabled exactly when a submit
      appends a message; a bubble shows the pending indicator exactly while
      its message has a call in flight.
    - Bubble: the decision rule is the spec's three conditions; the viewer
      of their own language sees the canonical text.
    - Types: in every reachable state each language code (user, message,
      cache key, call target) is a registry code.
    - Session: invariants of every reachable state (no system message and
      no same-language pair is ever sent to the translator, the
      [isTranslating] flags are exactly the in-flight requests of the
      mounted ChatRoom, at most one per message); in executions where the
      user leaves only when nothing is in flight and ids are fresh, the
      translator is called at most once per (message id, language), the
      cache only grows and every completion is the spec's
      insert-if-absent update.  Without the settled assumption the
      guarantees fail, and two general theorems say how: a call that
      settles after another entry of its message was cached erases that
      entry and makes the viewer's bubble call the translator again for
      the same pair ([stale_writeback_erases]); a viewer who leaves while a
      call is in flight and rejoins with the same language makes a second
      call for the same pair while the first is still in flight
      ([rejoin_repeats_call]).  Writing back the same message twice is
      writing it once, and afterwards every message with its id is that
      message, so a random-id collision clobbers another message's text
      ([handleUpdateMessage_idempotent]).  With a clock that does not go
      back the log is in timestamp order (spec section 8).
    - Refinement: in settled executions every step moves every (message id,
      language) pair along an arrow of the spec's state machine or leaves
      it, and a call to the translator is exactly a [NEEDED -> IN_FLIGHT]
      arrow ([pair_machine_simulation]); every completion is the spec's
      [updateTranslation].
    - Bounds, termination and liveness: in settled executions the number
      of calls is at most (messages) x (supported languages); the steps no
      user causes terminate ([environment_quiesces], by the measure
      [work_left]: twice the calls still possible, plus the calls in
      flight, plus 23 per pending timer, which each such step decreases);
      they can reach, and every run of them that stops does reach, a state
      with nothing in flight and nothing left to translate for the viewer
      ([all_messages_translated]); from a state where a bubble needs a
      translation, its effect and the promise's settlement, with any
      provider outcome, translate it ([translation_completes]).
    - No fuel is needed: every definition is structural, the session is
      driven by explicit finite event lists, and the theorems on all
      executions are proved by induction on [rtc] or, for termination, on
      the measure above.

    ** Modelling choices

    - Strings are [String.string] (bytes); non-ASCII literals such as the
      Georgian welcome text are their UTF-8 bytes.  [trim] removes the six
      ASCII white-space characters; JavaScript also removes Unicode spaces,
      which no theorem depends on.
    - [Date.now()] and [Math.random().toString(36).substr(2, 9)] are
      inputs of the events (an [N] and a [string]).
    - React re-renders between two events, so a handler's closure reads the
      current state; React's state updates inside one handler happen
      atomically, which is what React 18's batching does.
    - The effect of a bubble may run in any state (the model lets it run
      more often than React would); its own guard makes the extra runs
      no-ops, so the safety theorems cover every React schedule.
    - A screen is a view value: what each element shows and which state it
      reads; class names, icons and static titles are left out.

    ** Not modelled

    The provider client ([@google/genai]) is an input of the model: its
    answer is the [GenerateOutcome] of a resolution event.  [scrollToBottom]
    and its effect in [ChatRoom.tsx] only scroll the DOM; the timestamp's
    locale format, CSS, icons and the entry files ([index.tsx],
    [index.html]) carry no state the program reads.  The safety theorems
    hold in every reachable state; the ones that need fresh random ids, a
    logout only when nothing is in flight, or a clock that does not go
    back say so in their hypotheses ([fresh_reachable],
    [settled_reachable], [timed_reachable]); [stale_writeback_erases] and
    [rejoin_repeats_call] state what goes wrong without them, and
    [Scenarios.v] runs concrete traces that show it. *)

From stdpp Require Import base gmap strings list.
From Stdlib Require Import DecimalString DecimalN.

Declare Scope chat_scope.
Delimit Scope chat_scope with chat.
Open Scope string_scope.

(** ** JavaScript values used by the code *)

(** Truthiness of a possibly [undefined] string: [undefined] and [""] are
    falsy. *)
Definition truthy (o : option string) : bool :=
  match o with
  | Some s => negb (String.eqb s "")
  | None => false
  end.

(** [o || d] where [o] is a possibly [undefined] string. *)
Definition js_or (o : option string) (d : string) : string :=
  match o with
  | Some s => if String.eqb s "" then d else s
  | None => d
  end.

Notation "o '||?' d" := (js_or o d) (at level 50, left associativity) : chat_scope.
Open Scope chat_scope.

(** [n.toString()] for the non-negative integers [Date.now()] returns. *)
Definition num_to_string (n : N) : string :=
  NilZero.string_of_uint (N.to_uint n).

(** [s.startsWith(p)]. *)
Fixpoint starts_with (p s : string) : bool :=
  match p with
  | EmptyString => true
  | String c p' =>
      match s with
      | EmptyString => false
      | String c' s' => Ascii.eqb c c' && starts_with p' s'
      end
  end.

(** [xs.map(y => p(y) ? x : y)]. *)
Definition replace_where {A} (p : A -> bool) (x : A) (xs : list A) : list A :=
  map (fun y => if p y then x else y) xs.

(** ** Tactics *)

Ltac invc H := inversion H; subst; clear H.

(** Case on a string comparison of the goal or of a hypothesis. *)
Ltac case_streq :=
  match goal with
  | |- context [String.eqb ?a ?b] => destruct (String.eqb_spec a b)
  | H : context [String.eqb ?a ?b] |- _ => destruct (String.eqb_spec a b)
  end.
Tactic Notation "case_streq" "as" ident(H) :=
  match goal with
  | |- context [String.eqb ?a ?b] => destruct (String.eqb_spec a b) as [H|H]
  | _ : context [String.eqb ?a ?b] |- _ => destruct (String.eqb_spec a b) as [H|H]
  end.

(** Close a decidable proposition on closed data by evaluation. *)
Ltac decide_by_eval := apply (bool_decide_unpack _); vm_compute; reflexivity.

Create HintDb chat.
Create Rewrite HintDb chat_rw.

(** ** Generic lemmas *)

Lemma truthy_true o : truthy o = true <-> exists s, o = Some s /\ s <> "".
Proof.
  destruct o as [s|]; simpl; [|naive_solver].
  destruct (String.eqb_spec s ""); naive_solver.
Qed.

Lemma truthy_false_nonempty o :
  (forall s, o = Some s -> s <> "") -> truthy o = false -> o = None.
Proof.
  destruct o as [s|]; simpl; [|done].
  intros Hne Ht. specialize (Hne s eq_refl).
  destruct (String.eqb_spec s ""); naive_solver.
Qed.

Lemma js_or_nonempty o d : d <> "" -> js_or o d <> "".
Proof. destruct o as [s|]; simpl; [case_streq|]; naive_solver. Qed.

Lemma js_or_Some s d : s <> "" -> js_or (Some s) d = s.
Proof. simpl. case_streq; naive_solver. Qed.

Lemma js_or_None d : js_or None d = d.
Proof. done. Qed.

Lemma js_or_cases o d : js_or o d = d \/ (o = Some (js_or o d) /\ js_or o d <> "").
Proof. destruct o as [s|]; simpl; [case_streq|]; naive_solver. Qed.

#[export] Hint Resolve js_or_nonempty : chat.
#[export] Hint Rewrite js_or_Some js_or_None using done : chat_rw.

(** stdpp makes [String.append] opaque to [simpl]; these are its
    defining equations. *)
Lemma string_app_nil_l (s : string) : "" ++ s = s.
Proof. reflexivity. Qed.

Lemma string_app_cons c (a b : string) : String c a ++ b = String c (a ++ b).
Proof. reflexivity. Qed.

Lemma string_app_nil_r (s : string) : s ++ "" = s.
Proof. induction s as [|c s IH]; [done|]. by rewrite string_app_cons, IH. Qed.

Lemma string_app_inv_l (a x y : string) : a ++ x = a ++ y -> x = y.
Proof. induction a as [|c a IH]; [done|]. rewrite !string_app_cons. intros [= H]. auto. Qed.

Lemma string_app_nonempty_r (a b : string) : b <> "" -> a ++ b <> "".
Proof. destruct a; [done|]. rewrite string_app_cons. done. Qed.

#[export] Hint Rewrite string_app_nil_l string_app_cons string_app_nil_r : chat_rw.
#[export] Hint Resolve string_app_nonempty_r : chat.

Lemma length_replace_where {A} (p : A -> bool) x xs :
  length (replace_where p x xs) = length xs.
Proof. apply length_map. Qed.

Lemma lookup_replace_where {A} (p : A -> bool) x (xs : list A) i :
  replace_where p x xs !! i = (fun y => if p y then x else y) <$> xs !! i.
Proof. apply list_lookup_fmap. Qed.

Lemma elem_of_replace_where {A} (p : A -> bool) x (xs : list A) y :
  y ∈ replace_where p x xs <->
  (y = x /\ exists z, z ∈ xs /\ p z = true) \/ (y ∈ xs /\ p y = false).
Proof.
  unfold replace_where. rewrite list_elem_of_fmap. split.
  - intros (z & -> & Hz). destruct (p z) eqn:E; naive_solver.
  - intros [(-> & z & Hz & Hp) | (Hy & Hp)]; exists z || exists y;
      rewrite ?Hp; naive_solver.
Qed.

Lemma Forall_replace_where {A} (P : A -> Prop) (p : A -> bool) x xs :
  P x -> Forall P xs -> Forall P (replace_where p x xs).
Proof.
  intros Hx Hxs. apply Forall_fmap. eapply Forall_impl; [exact Hxs|].
  intros y Hy. simpl. destruct (p y); auto.
Qed.

Lemma replace_where_idem {A} (p : A -> bool) x xs :
  p x = true -> replace_where p x (replace_where p x xs) = replace_where p x xs.
Proof.
  intros Hx. unfold replace_where. rewrite List.map_map. apply List.map_ext.
  intros y. destruct (p y) eqn:E; simpl; by rewrite ?Hx, ?E.
Qed.

#[export] Hint Rewrite @length_replace_where : chat_rw.

(** Invariant induction over the reflexive-transitive closure. *)
Lemma rtc_invariant {A} (R : relation A) (P : A -> Prop) a b :
  P a -> (forall x y, P x -> R x y -> P y) -> rtc R a b -> P b.
Proof. intros Ha Hstep Hr. induction Hr; eauto. Qed.
