(* ===== verification/Types.v ===== *)
(** The data of [src/types.ts]: [User], [Message], [LanguageOption] and
    [SUPPORTED_LANGUAGES], with decidable equality, the canonical
    (immutable) part of a message, and the well-formedness predicates on
    the translation cache that the other files share. *)

From stdpp Require Import base gmap strings list.
From S2P Require Import Spec2Rocq.

Open Scope string_scope.

(** [interface User] (types.ts).  The field [id] is named [user_id] and
    [Message.id] is named [msg_id]: Rocq projections share one name space. *)
Record User := mkUser {
  user_id : string;
  nickname : string;
  language : string;
  languageLabel : string
}.

(** [interface Message] (types.ts).  [timestamp] is [Date.now()], a
    non-negative integer; [translations] is the [Record<string, string>]
    cache from language code to translated text. *)
Record Message := mkMessage {
  msg_id : string;
  senderId : string;
  senderName : string;
  text : string;
  originalLanguage : string;
  timestamp : N;
  translations : gmap string string
}.

(** [interface LanguageOption] (types.ts). *)
Record LanguageOption := mkLanguageOption {
  code : string;
  label : string;
  flag : string
}.

(** [SUPPORTED_LANGUAGES] (types.ts), labels and flags as their UTF-8
    bytes. *)
Definition SUPPORTED_LANGUAGES : list LanguageOption := [
  mkLanguageOption "ka" "ქართული" "🇬🇪";
  mkLanguageOption "en" "English" "🇺🇸";
  mkLanguageOption "es" "Español" "🇪🇸";
  mkLanguageOption "fr" "Français" "🇫🇷";
  mkLanguageOption "de" "Deutsch" "🇩🇪";
  mkLanguageOption "it" "Italiano" "🇮🇹";
  mkLanguageOption "ja" "日本語" "🇯🇵";
  mkLanguageOption "ko" "한국어" "🇰🇷";
  mkLanguageOption "zh" "中文" "🇨🇳";
  mkLanguageOption "tr" "Türkçe" "🇹🇷";
  mkLanguageOption "uk" "Українська" "🇺🇦"
].

#[export] Instance User_eq_dec : EqDecision User.
Proof. solve_decision. Defined.
#[export] Instance Message_eq_dec : EqDecision Message.
Proof. solve_decision. Defined.
#[export] Instance LanguageOption_eq_dec : EqDecision LanguageOption.
Proof. solve_decision. Defined.

(** [{...m, translations: {...m.translations, [L]: t}}]: the copy of a
    message with one more cache entry (MessageBubble.tsx lines 39-45). *)
Definition withTranslation (m : Message) (L t : string) : Message :=
  mkMessage (msg_id m) (senderId m) (senderName m) (text m) (originalLanguage m)
    (timestamp m) (<[L:=t]> (translations m)).

(** The fields the spec declares immutable after creation. *)
Definition canonical (m : Message) : string * string * string * string * string * N :=
  (msg_id m, senderId m, senderName m, text m, originalLanguage m, timestamp m).

(** The sentinel sender id of announcements ([senderId: 'system']). *)
Definition SYSTEM_ID : string := "system".

(** Every cached translation is a non-empty string, so that JavaScript's
    truthiness test on a cache entry is the same as its presence. *)
Definition cache_nonempty (m : Message) : Prop :=
  map_Forall (fun _ v => v <> "") (translations m).

(** The spec's self-translation invariant: the entry for the original
    language, if any, is the canonical text. *)
Definition self_translation_ok (m : Message) : Prop :=
  translations m !! originalLanguage m = None \/
  translations m !! originalLanguage m = Some (text m).

(** Ids of a message log. *)
Definition ids (ms : list Message) : list string := msg_id <$> ms.

(** [m'] has the same canonical fields as [m] and extends its cache. *)
Definition extends (m m' : Message) : Prop :=
  canonical m' = canonical m /\ translations m ⊆ translations m'.

Lemma cache_nonempty_insert m L v :
  cache_nonempty m -> v <> "" ->
  map_Forall (fun _ v => v <> "") (<[L:=v]> (translations m)).
Proof. intros Hm Hv. by apply map_Forall_insert_2. Qed.

Lemma cache_nonempty_lookup m L v :
  cache_nonempty m -> translations m !! L = Some v -> v <> "".
Proof. intros Hm Hl. exact (Hm L v Hl). Qed.

(** On a well-formed cache, truthiness of an entry is its presence. *)
Lemma truthy_cache m L :
  cache_nonempty m -> truthy (translations m !! L) = false <-> translations m !! L = None.
Proof.
  intros Hm. split; [apply truthy_false_nonempty; eauto using cache_nonempty_lookup|].
  intros ->. done.
Qed.

Lemma extends_refl m : extends m m.
Proof. split; done. Qed.

Lemma extends_trans m1 m2 m3 : extends m1 m2 -> extends m2 m3 -> extends m1 m3.
Proof. intros [H1 H1'] [H2 H2']. split; [congruence|by etrans]. Qed.

Lemma ids_app ms1 ms2 : ids (ms1 ++ ms2)%list = (ids ms1 ++ ids ms2)%list.
Proof. apply fmap_app. Qed.

(** With distinct ids, two positions holding the same id are one. *)
Lemma ids_lookup_inj ms i j m m' :
  NoDup (ids ms) -> ms !! i = Some m -> ms !! j = Some m' -> msg_id m = msg_id m' -> i = j.
Proof.
  intros Hnd Hi Hj Heq. eapply NoDup_lookup; [exact Hnd| |].
  - unfold ids. rewrite list_lookup_fmap, Hi. reflexivity.
  - unfold ids. rewrite list_lookup_fmap, Hj, Heq. reflexivity.
Qed.

Lemma withTranslation_extends m L t :
  translations m !! L = None -> extends m (withTranslation m L t).
Proof. intros Hl. split; [done|]. by apply insert_subseteq. Qed.

Lemma withTranslation_lookup_eq m L t : translations (withTranslation m L t) !! L = Some t.
Proof. apply lookup_insert_eq. Qed.

Lemma canonical_withTranslation m L t : canonical (withTranslation m L t) = canonical m.
Proof. done. Qed.

#[export] Hint Resolve extends_refl cache_nonempty_insert : chat.
#[export] Hint Rewrite ids_app withTranslation_lookup_eq canonical_withTranslation : chat_rw.
