(* ===== verification/Translator.v ===== *)
(** [src/services/gemini.ts]: the translation service.  JavaScript's
    [String.prototype.trim] on ASCII white space, the request sent to the
    provider, the provider's outcome, [translateText] with its fail-soft
    fallback, and the class [Translator] that states what the orchestrator
    ([Bubble.v], [Session.v]) relies on, with its instance for
    [translateText]. *)

From stdpp Require Import base gmap strings list.
From Stdlib Require Import Ascii.
From Stdlib Require QArith_base.
From S2P Require Import Spec2Rocq.

Open Scope string_scope.

(** ** [String.prototype.trim] *)

(** The ASCII characters JavaScript's [trim] removes: tab, line feed,
    vertical tab, form feed, carriage return and space. *)
Definition is_js_space (c : ascii) : bool :=
  match nat_of_ascii c with
  | 9 | 10 | 11 | 12 | 13 | 32 => true
  | _ => false
  end.

Fixpoint trimStart (s : string) : string :=
  match s with
  | EmptyString => EmptyString
  | String c s' => if is_js_space c then trimStart s' else s
  end.

Fixpoint trimEnd (s : string) : string :=
  match s with
  | EmptyString => EmptyString
  | String c s' =>
      match trimEnd s' with
      | EmptyString => if is_js_space c then EmptyString else String c EmptyString
      | r => String c r
      end
  end.

Definition trim (s : string) : string := trimEnd (trimStart s).

Fixpoint all_space (s : string) : bool :=
  match s with
  | EmptyString => true
  | String c s' => is_js_space c && all_space s'
  end.

Fixpoint string_last (s : string) : option ascii :=
  match s with
  | EmptyString => None
  | String c EmptyString => Some c
  | String _ s' => string_last s'
  end.

(** A string with no white space at either end. *)
Definition trimmed (t : string) : Prop :=
  (forall c t', t = String c t' -> is_js_space c = false) /\
  (forall c, string_last t = Some c -> is_js_space c = false).

(** ** The provider call *)

Definition newline : string := String (ascii_of_nat 10) EmptyString.
Definition dquote : string := String (ascii_of_nat 34) EmptyString.

(** The template literal passed as [contents] (gemini.ts lines 10-14),
    with its line breaks, trailing blanks and six-space indentation. *)
Definition translationPrompt (text targetLanguage : string) : string :=
  "Translate the following chat message to " ++ targetLanguage ++ ". " ++ newline ++
  "      Maintain the casual tone of a chat message. " ++ newline ++
  "      Do not include any explanations, just the translated text." ++ newline ++
  "      " ++ newline ++
  "      Message: " ++ dquote ++ text ++ dquote.

Record GenerateRequest := mkGenerateRequest {
  model : string;
  contents : string;
  temperature : QArith_base.Q;
  topP : QArith_base.Q
}.

(** The argument of [ai.models.generateContent]. *)
Definition translationRequest (text targetLanguage : string) : GenerateRequest :=
  mkGenerateRequest "gemini-3-flash-preview" (translationPrompt text targetLanguage)
    (QArith_base.Qmake 1 10) (QArith_base.Qmake 1 10).

(** How the awaited call ends: the promise resolves with a response whose
    [text] is present or [undefined], or it rejects (network, provider or
    parse error). *)
Inductive GenerateOutcome :=
| GenResolved (response_text : option string)
| GenRejected.

(** [translateText] (gemini.ts lines 6-26): [response.text?.trim() || text]
    on success, [text] in the [catch] branch. *)
Definition translateText (text targetLanguage : string) (outcome : GenerateOutcome) : string :=
  match outcome with
  | GenResolved response_text => js_or (trim <$> response_text) text
  | GenRejected => text
  end.

(** ** The interface the orchestrator relies on *)

(** A translator fails soft (a rejected call returns the input) and never
    answers a non-empty text with the empty string, which the cache's
    truthiness test would take for a missing entry. *)
Class Translator (translate : string -> string -> GenerateOutcome -> string) := {
  translate_fail_soft : forall t L, translate t L GenRejected = t;
  translate_nonempty : forall t L o, t <> "" -> translate t L o <> ""
}.

(** ** Lemmas on [trim] *)

Lemma all_space_app a b : all_space (a ++ b) = all_space a && all_space b.
Proof.
  induction a as [|c a IH]; [done|].
  rewrite string_app_cons. simpl. rewrite IH. by rewrite andb_assoc.
Qed.

Lemma trimStart_spec s :
  exists pre, s = pre ++ trimStart s /\ all_space pre = true /\
    (forall c t', trimStart s = String c t' -> is_js_space c = false).
Proof.
  induction s as [|c s IH]; simpl.
  - exists ""; naive_solver.
  - destruct (is_js_space c) eqn:Hc.
    + destruct IH as (pre & Hs & Hpre & Hhd). exists (String c pre). simpl.
      rewrite string_app_cons, Hc, Hpre, <- Hs. done.
    + exists ""; split; [done|]. split; [done|]. intros c' t' [= -> ->]. done.
Qed.

Lemma trimEnd_cons_nonspace c s :
  is_js_space c = false -> trimEnd (String c s) = String c (trimEnd s).
Proof. intros Hc. simpl. destruct (trimEnd s); rewrite ?Hc; done. Qed.

Lemma string_last_cons c s : s <> "" -> string_last (String c s) = string_last s.
Proof. destruct s; done. Qed.

Lemma trimEnd_spec s :
  exists post, s = trimEnd s ++ post /\ all_space post = true /\
    (forall c, string_last (trimEnd s) = Some c -> is_js_space c = false).
Proof.
  induction s as [|c s IH]; simpl.
  - exists ""; naive_solver.
  - destruct IH as (post & Hs & Hpost & Hlast).
    destruct (trimEnd s) as [|c' r] eqn:Et.
    + rewrite string_app_nil_l in Hs. subst s. destruct (is_js_space c) eqn:Hc.
      * exists (String c post). simpl. rewrite Hc, Hpost. naive_solver.
      * exists post. split; [done|]. split; [done|]. intros c' [= <-]. done.
    + exists post. split; [rewrite string_app_cons; congruence|]. split; [done|].
      intros c0 Hc0. apply Hlast. rewrite <- Hc0. symmetry. by apply string_last_cons.
Qed.

Lemma trimEnd_head s c t' :
  trimEnd s = String c t' -> exists s', s = String c s'.
Proof.
  destruct s as [|c0 s]; simpl; [done|].
  destruct (trimEnd s); [destruct (is_js_space c0)|]; intros [= <- _]; eauto.
Qed.

Lemma trimEnd_trimmed_id t :
  (forall c, string_last t = Some c -> is_js_space c = false) -> trimEnd t = t.
Proof.
  induction t as [|c t IH]; intros Hlast; [done|].
  destruct t as [|c' t'].
  - simpl. by rewrite (Hlast c eq_refl).
  - simpl in *. rewrite IH by done. done.
Qed.

Lemma trimStart_trimmed_id t :
  (forall c t', t = String c t' -> is_js_space c = false) -> trimStart t = t.
Proof. destruct t as [|c t]; intros Hhd; [done|]. simpl. by rewrite (Hhd c t eq_refl). Qed.

#[export] Hint Rewrite all_space_app : chat_rw.

(** The two halves of [trim]'s specification. *)
Lemma trim_decomp s :
  exists pre post, s = pre ++ (trim s ++ post) /\ all_space pre = true /\ all_space post = true.
Proof.
  destruct (trimStart_spec s) as (pre & Hs & Hpre & _).
  destruct (trimEnd_spec (trimStart s)) as (post & Ht & Hpost & _).
  exists pre, post. unfold trim. rewrite <- Ht. done.
Qed.

Lemma trim_trimmed s : trimmed (trim s).
Proof.
  destruct (trimEnd_spec (trimStart s)) as (post & _ & _ & Hlast).
  destruct (trimStart_spec s) as (pre & _ & _ & Hhd).
  split; [|done]. intros c t' Hc.
  destruct (trimEnd_head _ _ _ Hc) as [s' Hs']. eauto.
Qed.

Lemma trim_trimmed_id t : trimmed t -> trim t = t.
Proof.
  intros [Hhd Hlast]. unfold trim.
  rewrite trimStart_trimmed_id by done. by apply trimEnd_trimmed_id.
Qed.

Lemma trim_trim s : trim (trim s) = trim s.
Proof. apply trim_trimmed_id, trim_trimmed. Qed.

Lemma all_space_trimStart s : all_space s = true -> trimStart s = "".
Proof.
  induction s as [|c s IH]; [done|]. simpl.
  intros [-> Hs]%andb_prop. auto.
Qed.

Lemma trim_empty_all_space s : trim s = "" -> all_space s = true.
Proof.
  intros Ht. destruct (trim_decomp s) as (pre & post & Hs & Hpre & Hpost).
  rewrite Ht, string_app_nil_l in Hs. subst s. by rewrite all_space_app, Hpre, Hpost.
Qed.

Lemma translateText_nonempty_of text L o : text <> "" -> translateText text L o <> "".
Proof. intros Hne. destruct o as [r|]; simpl; [by apply js_or_nonempty|done]. Qed.

#[export] Hint Resolve trim_trimmed translateText_nonempty_of : chat.

(** [!x.trim()] holds exactly on all-blank strings. *)
Lemma trim_empty_iff s : trim s = "" <-> all_space s = true.
Proof.
  split; [apply trim_empty_all_space|].
  intros Hs. unfold trim. by rewrite all_space_trimStart.
Qed.

(** ** Theorems *)

(** C18: [translateText] on every outcome of the provider: the input text
    on a rejected call and on an absent [response.text]; on an answer [r],
    the input text when [r] is all white space, and otherwise [r] with its
    white space trimmed, which is then non-empty. *)
Theorem translateText_result text L :
  translateText text L GenRejected = text /\
  translateText text L (GenResolved None) = text /\
  (forall r, all_space r = true -> translateText text L (GenResolved (Some r)) = text) /\
  (forall r, all_space r = false ->
     translateText text L (GenResolved (Some r)) = trim r /\ trim r <> "").
Proof.
  split_and!; [done|done| |].
  - intros r Hr. unfold translateText. change (trim <$> Some r) with (Some (trim r)).
    by rewrite (proj2 (trim_empty_iff r) Hr).
  - intros r Hr. assert (trim r <> "") as Hne by (intros Ht%trim_empty_iff; congruence).
    unfold translateText. change (trim <$> Some r) with (Some (trim r)). by rewrite js_or_Some.
Qed.

(** C19: a non-empty text is never translated to [""], whatever the
    provider does. *)
Theorem translateText_nonempty text L o : text <> "" -> translateText text L o <> "".
Proof. intros Hne. destruct o as [r|]; simpl; [by apply js_or_nonempty|done]. Qed.

Lemma translateText_nonempty_witness : translateText "hello" "fr" GenRejected <> "".
Proof. apply translateText_nonempty. decide_by_eval. Defined.

#[export] Instance translateText_Translator : Translator translateText.
Proof. split; [done|]. apply translateText_nonempty_of. Qed.
