(* ===== verification/Store.v ===== *)
(** [src/App.tsx]: the message store.  The React state of [App]
    ([currentUser], [messages]) and the bot timers scheduled with
    [setTimeout] form the record [AppState]; each handler is a function on
    it.  The module [ConversationSpec] is the spec's abstract Conversation
    Store (section 4.1), against which [handleUpdateMessage] is compared. *)

From stdpp Require Import base gmap strings list.
From S2P Require Import Spec2Rocq Types.

Open Scope string_scope.

Record AppState := mkAppState {
  currentUser : option User;
  messages : list Message;
  (** callbacks scheduled by [setTimeout] in [handleSendMessage] that have
      not fired yet *)
  botTimers : nat
}.

Definition initialApp : AppState := mkAppState None [] 0.

(** The welcome message of [handleJoin] (App.tsx lines 16-24).  Its cache is
    seeded, under the joining user's language, with a Georgian sentence. *)
Definition welcomeMsg (user : User) (now : N) : Message :=
  mkMessage ("system-" ++ num_to_string now) SYSTEM_ID "System"
    (nickname user ++ " joined the chat!") "en" now
    {[ language user := nickname user ++ " შემოვიდა ჩათში!" ]}.

(** [handleJoin] (App.tsx lines 13-26). *)
Definition handleJoin (user : User) (now : N) (s : AppState) : AppState :=
  mkAppState (Some user) (messages s ++ [welcomeMsg user now])%list (botTimers s).

(** The message [handleSendMessage] builds (App.tsx lines 31-39);
    [rnd] is [Math.random().toString(36).substr(2, 9)]. *)
Definition newMessage (u : User) (text rnd : string) (now : N) : Message :=
  mkMessage ("msg-" ++ rnd) (user_id u) (nickname u) text (language u) now
    {[ language u := text ]}.

(** [handleSendMessage] (App.tsx lines 28-58).  The length test reads the
    log before the append; the timer's callback is [fireBotTimer]. *)
Definition handleSendMessage (text rnd : string) (now : N) (s : AppState) : AppState :=
  match currentUser s with
  | None => s
  | Some u =>
      mkAppState (Some u) (messages s ++ [newMessage u text rnd now])%list
        (if Nat.eqb (length (messages s)) 5 then S (botTimers s) else botTimers s)
  end.

(** The bot's message, built when the timer fires (App.tsx lines 46-54). *)
Definition botMsg (now : N) : Message :=
  mkMessage ("bot-" ++ num_to_string now) "bot-1" "Tiko (Bot)"
    "Welcome everyone! I can speak many languages too." "en" now ∅.

(** A pending [setTimeout] callback runs (App.tsx lines 45-56); [None] when
    no timer is pending. *)
Definition fireBotTimer (now : N) (s : AppState) : option AppState :=
  match botTimers s with
  | O => None
  | S k => Some (mkAppState (currentUser s) (messages s ++ [botMsg now])%list k)
  end.

(** [handleUpdateMessage] (App.tsx lines 60-62): every message whose id is
    the updated message's id is replaced by it. *)
Definition handleUpdateMessage (updatedMsg : Message) (s : AppState) : AppState :=
  mkAppState (currentUser s)
    (replace_where (fun m => String.eqb (msg_id m) (msg_id updatedMsg)) updatedMsg (messages s))
    (botTimers s).

(** [onLogout={() => setCurrentUser(null)}] (App.tsx line 74). *)
Definition handleLogout (s : AppState) : AppState :=
  mkAppState None (messages s) (botTimers s).

(** ** The spec's Conversation Store (spec section 4.1) *)

Module ConversationSpec.
(** [append(message)]. *)
Definition append (m : Message) (log : list Message) : list Message := (log ++ [m])%list.

(** [updateTranslation(messageId, language, translatedText)]: sets the
    entry only if it is not set yet; a no-op on an unknown id. *)
Definition updateTranslation (mid L t : string) (log : list Message) : list Message :=
  (fun m =>
     if String.eqb (msg_id m) mid then
       match translations m !! L with
       | Some _ => m
       | None => withTranslation m L t
       end
     else m) <$> log.
End ConversationSpec.

(** ** The App as a state machine *)

(** The calls the rest of the program makes into [App]: [onJoin],
    [onSendMessage], a timer callback, [onUpdateMessage] and [onLogout]. *)
Inductive AppEvent :=
| AJoin (user : User) (now : N)
| ASend (text rnd : string) (now : N)
| AFire (now : N)
| AUpdate (updatedMsg : Message)
| ALogout.

Definition app_step (e : AppEvent) (s : AppState) : option AppState :=
  match e with
  | AJoin u now => Some (handleJoin u now s)
  | ASend t rnd now => Some (handleSendMessage t rnd now s)
  | AFire now => fireBotTimer now s
  | AUpdate m => Some (handleUpdateMessage m s)
  | ALogout => Some (handleLogout s)
  end.

Definition app_reachable (s : AppState) : Prop :=
  rtc (fun s1 s2 => exists e, app_step e s1 = Some s2) initialApp s.

(** Messages posted by the simulated bot, recognised by their id. *)
Definition is_bot_msg (m : Message) : bool := starts_with "bot-" (msg_id m).

(** Bot replies scheduled so far: pending timers plus posted replies. *)
Definition bots_scheduled (s : AppState) : nat :=
  botTimers s + length (filter (fun m => is_bot_msg m = true) (messages s)).

(** ** Lemmas *)

Lemma length_messages_update m s :
  length (messages (handleUpdateMessage m s)) = length (messages s).
Proof. apply length_replace_where. Qed.

Lemma filter_replace_where_same_id (P : Message -> Prop) `{!forall m, Decision (P m)} x xs :
  (forall y, msg_id y = msg_id x -> (P y <-> P x)) ->
  length (filter P (replace_where (fun y => String.eqb (msg_id y) (msg_id x)) x xs)) =
  length (filter P xs).
Proof.
  intros HP. induction xs as [|y xs IH]; [done|]. simpl.
  rewrite !filter_cons. case_streq as Hy.
  - destruct (decide (P x)), (decide (P y)); simpl; rewrite ?IH; naive_solver.
  - by destruct (decide (P y)); simpl; rewrite IH.
Qed.

Lemma bots_scheduled_update m s : bots_scheduled (handleUpdateMessage m s) = bots_scheduled s.
Proof.
  unfold bots_scheduled. simpl. f_equal.
  apply filter_replace_where_same_id. unfold is_bot_msg. intros y ->. done.
Qed.

Lemma length_filter_app_single (P : Message -> Prop) `{!forall m, Decision (P m)} xs x :
  length (filter P (xs ++ [x])%list) = length (filter P xs) + (if decide (P x) then 1 else 0).
Proof. rewrite filter_app, length_app. simpl. rewrite filter_cons. by destruct (decide (P x)). Qed.

(** With distinct ids, writing back a logged message extended by an entry
    it lacks is the spec's insert-if-absent update of the log. *)
Lemma replace_where_updateTranslation ms i m L t :
  NoDup (ids ms) -> ms !! i = Some m -> translations m !! L = None ->
  replace_where (fun y => String.eqb (msg_id y) (msg_id (withTranslation m L t)))
    (withTranslation m L t) ms =
  ConversationSpec.updateTranslation (msg_id m) L t ms.
Proof.
  intros Hnd Hi HL. apply list_eq. intros j.
  unfold ConversationSpec.updateTranslation.
  rewrite lookup_replace_where, list_lookup_fmap.
  destruct (ms !! j) as [m'|] eqn:Hj; [simpl|done]. f_equal.
  case_streq as Heq; [|done].
  assert (i = j) as <- by (eapply ids_lookup_inj; eauto).
  rewrite Hi in Hj. injection Hj as <-. by rewrite HL.
Qed.

(** ** Theorems *)

(** C21: sending while logged in appends exactly one message at the end
    of the log: the trimmed text as canonical text, in the sender's
    language, with the self-translation seeded; logged out, nothing
    changes. *)
Theorem handleSendMessage_spec text rnd now s :
  match currentUser s with
  | None => handleSendMessage text rnd now s = s
  | Some u =>
      exists m, messages (handleSendMessage text rnd now s) = (messages s ++ [m])%list /\
        canonical m = ("msg-" ++ rnd, user_id u, nickname u, text, language u, now) /\
        translations m = {[ language u := text ]} /\
        currentUser (handleSendMessage text rnd now s) = Some u
  end.
Proof.
  unfold handleSendMessage. destruct (currentUser s) as [u|]; [|done].
  eexists. split_and!; reflexivity.
Qed.

(** C20: with distinct ids, writing back a copy of a logged message extended
    by an entry it lacks is exactly the spec's insert-if-absent
    [updateTranslation]. *)
Theorem handleUpdateMessage_refines s i m L t :
  NoDup (ids (messages s)) -> messages s !! i = Some m -> translations m !! L = None ->
  messages (handleUpdateMessage (withTranslation m L t) s) =
  ConversationSpec.updateTranslation (msg_id m) L t (messages s).
Proof. apply replace_where_updateTranslation. Qed.

(** C22: [handleUpdateMessage] overwrites a cached translation with a
    different value, where the spec's [updateTranslation] keeps the first
    value (spec section 4.1, "last-writer overwrite is explicitly NOT
    allowed"). *)
Theorem handleUpdateMessage_overwrites s i m L v v' :
  messages s !! i = Some m -> translations m !! L = Some v -> v <> v' ->
  messages (handleUpdateMessage (withTranslation m L v') s) !! i = Some (withTranslation m L v') /\
  translations (withTranslation m L v') !! L = Some v' /\
  ConversationSpec.updateTranslation (msg_id m) L v' (messages s) !! i = Some m.
Proof.
  intros Hi HL Hne. unfold handleUpdateMessage, ConversationSpec.updateTranslation. simpl.
  rewrite lookup_replace_where, list_lookup_fmap, Hi. simpl.
  rewrite String.eqb_refl, HL. split_and!; [done|apply lookup_insert_eq|done].
Qed.

(** C23: spec section 8, idempotence: writing back the same message twice
    leaves the log as writing it once, and after a write-back every logged
    message with its id is that message, so a translation it carries is
    the cached one. *)
Theorem handleUpdateMessage_idempotent m s :
  handleUpdateMessage m (handleUpdateMessage m s) = handleUpdateMessage m s /\
  (forall m', m' ∈ messages (handleUpdateMessage m s) -> msg_id m' = msg_id m -> m' = m).
Proof.
  unfold handleUpdateMessage. cbn [messages currentUser botTimers]. split.
  - f_equal. apply replace_where_idem, String.eqb_refl.
  - intros m' Hm' Hid. apply elem_of_replace_where in Hm' as [[-> _]|[_ Hp]]; [done|].
    by rewrite Hid, String.eqb_refl in Hp.
Qed.

Definition bot_inv (s : AppState) : Prop :=
  bots_scheduled s <= 1 /\ (length (messages s) <= 5 -> bots_scheduled s = 0).

Lemma bots_scheduled_append s cu m k :
  is_bot_msg m = false ->
  bots_scheduled (mkAppState cu (messages s ++ [m])%list k) + botTimers s =
  bots_scheduled s + k.
Proof.
  intros Hm. unfold bots_scheduled. simpl.
  rewrite (length_filter_app_single (fun m => is_bot_msg m = true)), decide_False by congruence.
  lia.
Qed.

Lemma app_step_bot_inv e s s' : bot_inv s -> app_step e s = Some s' -> bot_inv s'.
Proof.
  unfold bot_inv. intros [Hle Hlen] Hstep.
  destruct e as [u now|t rnd now|now|m|]; simpl in Hstep.
  - injection Hstep as <-. unfold handleJoin.
    pose proof (bots_scheduled_append s (Some u) (welcomeMsg u now) (botTimers s) eq_refl).
    cbn [messages]. rewrite length_app. simpl. lia.
  - injection Hstep as <-. unfold handleSendMessage.
    destruct (currentUser s) as [u|] eqn:Hu; [|done].
    pose proof (bots_scheduled_append s (Some u) (newMessage u t rnd now)
      (if Nat.eqb (length (messages s)) 5 then S (botTimers s) else botTimers s) eq_refl).
    cbn [messages]. rewrite length_app. simpl. destruct (Nat.eqb_spec (length (messages s)) 5); lia.
  - unfold fireBotTimer in Hstep. destruct (botTimers s) as [|k] eqn:Hk; [done|].
    injection Hstep as <-. unfold bots_scheduled in *. simpl.
    rewrite (length_filter_app_single (fun m => is_bot_msg m = true)), decide_True by reflexivity.
    rewrite length_app. simpl. rewrite Hk in Hle, Hlen. lia.
  - injection Hstep as <-. rewrite bots_scheduled_update, length_messages_update. done.
  - injection Hstep as <-. done.
Qed.

(** C25: the simulated bot is scheduled at most once in the App's life:
    the test [messages.length === 5] reads a log that only grows, one
    message at a time, so it holds at one send at most, and before the log
    reaches six messages nothing is scheduled. *)
Theorem bot_scheduled_at_most_once s :
  app_reachable s -> bots_scheduled s <= 1 /\ (length (messages s) <= 5 -> bots_scheduled s = 0).
Proof.
  apply (rtc_invariant _ bot_inv); [unfold bot_inv, bots_scheduled; simpl; lia|].
  intros x y Hx [e He]. eauto using app_step_bot_inv.
Qed.

(** C24: the welcome message of an English-speaking user breaks the spec's
    self-translation invariant: its cache maps its original language
    ["en"] to the Georgian sentence, not to its text. *)
Theorem welcome_self_translation_broken u now :
  language u = "en" -> ~ self_translation_ok (welcomeMsg u now).
Proof.
  intros Hen. unfold self_translation_ok, welcomeMsg. simpl. rewrite <- Hen, lookup_singleton_eq.
  intros [H|H]; [done|]. injection H as H. apply string_app_inv_l in H. discriminate.
Qed.

Lemma welcome_self_translation_broken_witness :
  language (mkUser "k3x9q2m1a" "Nino" "en" "English") = "en" /\
  ~ self_translation_ok (welcomeMsg (mkUser "k3x9q2m1a" "Nino" "en" "English") 1700000000000).
Proof. split; [reflexivity|]. apply welcome_self_translation_broken. reflexivity. Defined.

(** ** Sample states for the witnesses *)

Definition demo_user_en : User := mkUser "u1k2j3h4g" "Ana" "en" "English".

(** Ana joins at time 1 and says "hello" at time 2. *)
Definition demo_app : AppState :=
  handleSendMessage "hello" "abc123def" 2 (handleJoin demo_user_en 1 initialApp).

Definition demo_hello : Message := newMessage demo_user_en "hello" "abc123def" 2.

Lemma handleUpdateMessage_refines_witness :
  messages (handleUpdateMessage (withTranslation demo_hello "fr" "bonjour") demo_app) =
  ConversationSpec.updateTranslation "msg-abc123def" "fr" "bonjour" (messages demo_app).
Proof.
  apply (handleUpdateMessage_refines demo_app 1 demo_hello "fr" "bonjour");
    [decide_by_eval|reflexivity|reflexivity].
Defined.

Lemma handleUpdateMessage_overwrites_witness :
  messages (handleUpdateMessage (withTranslation demo_hello "en" "hi") demo_app) !! 1 =
    Some (withTranslation demo_hello "en" "hi") /\
  translations (withTranslation demo_hello "en" "hi") !! "en" = Some "hi" /\
  ConversationSpec.updateTranslation (msg_id demo_hello) "en" "hi" (messages demo_app) !! 1 =
    Some demo_hello.
Proof.
  apply (handleUpdateMessage_overwrites demo_app 1 demo_hello "en" "hello" "hi");
    [reflexivity|reflexivity|discriminate].
Defined.

Lemma bot_scheduled_at_most_once_witness :
  bots_scheduled demo_app <= 1 /\ (length (messages demo_app) <= 5 -> bots_scheduled demo_app = 0).
Proof.
  apply bot_scheduled_at_most_once. unfold app_reachable, demo_app.
  eapply rtc_l; [exists (AJoin demo_user_en 1); reflexivity|].
  eapply rtc_l; [exists (ASend "hello" "abc123def" 2); reflexivity|].
  apply rtc_refl.
Defined.
