(* ===== verification/Forms.v ===== *)
(** The two forms: [src/components/JoinScreen.tsx] ([nickname] and
    [selectedLang] state, the language buttons, [handleSubmit]) and the
    input of [src/components/ChatRoom.tsx] ([inputText] state,
    [handleSend]).  Each submit handler returns what it passes to its
    callback ([onJoin], [onSendMessage]), [None] on its early return. *)

From stdpp Require Import base gmap strings list.
From S2P Require Import Spec2Rocq Types Translator.

Open Scope string_scope.

(** ** ChatRoom's input *)

Record ChatRoomState := mkChatRoomState { inputText : string }.

Definition initialChatRoom : ChatRoomState := mkChatRoomState "".

(** [onChange={(e) => setInputText(e.target.value)}] (ChatRoom.tsx line 82). *)
Definition setInputText (v : string) (st : ChatRoomState) : ChatRoomState :=
  mkChatRoomState v.

(** [handleSend] (ChatRoom.tsx lines 32-37): the new form state and the
    text given to [onSendMessage]. *)
Definition handleSend (st : ChatRoomState) : ChatRoomState * option string :=
  if String.eqb (trim (inputText st)) "" then (st, None)
  else (mkChatRoomState "", Some (trim (inputText st))).

(** ** JoinScreen *)

Record JoinScreenState := mkJoinScreenState {
  nicknameInput : string;
  selectedLang : LanguageOption
}.

(** [SUPPORTED_LANGUAGES[0]]. *)
Definition firstLanguage : LanguageOption :=
  match SUPPORTED_LANGUAGES with
  | l :: _ => l
  | [] => mkLanguageOption "" "" ""
  end.

Definition initialJoinScreen : JoinScreenState := mkJoinScreenState "" firstLanguage.

(** [onChange={(e) => setNickname(e.target.value)}] (JoinScreen.tsx line 42). *)
Definition setNickname (v : string) (st : JoinScreenState) : JoinScreenState :=
  mkJoinScreenState v (selectedLang st).

(** The [i]-th language button's [onClick={() => setSelectedLang(lang)}]
    (JoinScreen.tsx lines 51-55); there is no button past the list. *)
Definition selectLanguage (i : nat) (st : JoinScreenState) : JoinScreenState :=
  match SUPPORTED_LANGUAGES !! i with
  | Some lang => mkJoinScreenState (nicknameInput st) lang
  | None => st
  end.

(** [handleSubmit] (JoinScreen.tsx lines 13-23): the user given to [onJoin];
    [rnd] is [Math.random().toString(36).substr(2, 9)]. *)
Definition handleSubmit (rnd : string) (st : JoinScreenState) : option User :=
  if String.eqb (trim (nicknameInput st)) "" then None
  else Some (mkUser rnd (trim (nicknameInput st)) (code (selectedLang st)) (label (selectedLang st))).

Definition join_form_step (st st' : JoinScreenState) : Prop :=
  (exists v, st' = setNickname v st) \/ (exists i, st' = selectLanguage i st).

Definition join_form_reachable (st : JoinScreenState) : Prop :=
  rtc join_form_step initialJoinScreen st.

(** The language codes a user can pick. *)
Definition supported_codes : list string := code <$> SUPPORTED_LANGUAGES.

Lemma handleSend_Some st st' t :
  handleSend st = (st', Some t) -> t <> "".
Proof. unfold handleSend. case_streq as Ht; [done|]. by intros [= _ <-]. Qed.

(** ** Theorems *)

(** C29: [handleSend] forwards exactly the trimmed input, which is
    non-empty and has no white space at its ends, and clears the field; on
    an all-blank input it forwards nothing and keeps the form. *)
Theorem handleSend_spec st :
  match handleSend st with
  | (st', Some t) => t = trim (inputText st) /\ t <> "" /\ trim t = t /\ inputText st' = ""
  | (st', None) => st' = st /\ all_space (inputText st) = true
  end.
Proof.
  unfold handleSend. case_streq as Ht.
  - split; [done|]. by apply trim_empty_all_space.
  - split_and!; [done|done|apply trim_trim|done].
Qed.

Lemma join_form_step_selected st st' :
  selectedLang st ∈ SUPPORTED_LANGUAGES -> join_form_step st st' ->
  selectedLang st' ∈ SUPPORTED_LANGUAGES.
Proof.
  intros Hin [[v ->]|[i ->]]; [done|].
  unfold selectLanguage. destruct (SUPPORTED_LANGUAGES !! i) as [l|] eqn:Hl; [|done].
  simpl. by eapply list_elem_of_lookup_2.
Qed.

(** C30: a user built by the join form has a trimmed, non-empty nickname
    and one of the supported language codes: the selected language only
    ever comes from [SUPPORTED_LANGUAGES]. *)
Theorem handleSubmit_valid st rnd u :
  join_form_reachable st -> handleSubmit rnd st = Some u ->
  language u ∈ supported_codes /\ nickname u <> "" /\ trim (nickname u) = nickname u /\
  user_id u = rnd.
Proof.
  intros Hr Hs.
  assert (selectedLang st ∈ SUPPORTED_LANGUAGES) as Hin.
  { apply (rtc_invariant join_form_step (fun st => selectedLang st ∈ SUPPORTED_LANGUAGES) initialJoinScreen st);
      [|eauto using join_form_step_selected|done].
    simpl. left. }
  unfold handleSubmit in Hs. case_streq as Ht; [done|]. injection Hs as <-. simpl.
  split_and!; [|done|apply trim_trim|done].
  apply list_elem_of_fmap. eauto.
Qed.

Lemma handleSubmit_valid_witness :
  language (mkUser "r4nd0m1d9" "Nino" "fr" "Français") ∈ supported_codes.
Proof.
  eapply (handleSubmit_valid (selectLanguage 3 (setNickname "  Nino " initialJoinScreen)) "r4nd0m1d9").
  - eapply rtc_l; [left; exists "  Nino "; reflexivity|].
    eapply rtc_l; [right; exists 3; reflexivity|]. apply rtc_refl.
  - vm_compute. reflexivity.
Defined.
