(* ===== verification/Bubble.v ===== *)
(** [src/components/MessageBubble.tsx]: the translation orchestrator of one
    message for one viewer.  [displayedText] and [needsTranslation] are the
    two [useMemo] values; [bubbleEffect] is the [useEffect] body up to its
    [await] (it returns the request it starts, [None] when its guard is
    false); [updatedMessage] is the copy written back after the [await];
    [renderBubble] is the returned markup as a view value.  The write-back
    is parametrised by the translation function, so that the session
    theorems are proved against the [Translator] class. *)

From stdpp Require Import base gmap strings list.
From Stdlib Require Import Ascii.
From S2P Require Import Spec2Rocq Types Translator Store.

Open Scope string_scope.

(** [isMine] (line 13). *)
Definition isMine (m : Message) (u : User) : bool := String.eqb (senderId m) (user_id u).

(** [isSystem] (line 14). *)
Definition isSystem (m : Message) : bool := String.eqb (senderId m) SYSTEM_ID.

(** [displayedText] (lines 17-23). *)
Definition displayedText (m : Message) (u : User) : string :=
  if String.eqb (originalLanguage m) (language u) then text m
  else translations m !! language u ||? text m.

(** [needsTranslation] (lines 25-31). *)
Definition needsTranslation (m : Message) (u : User) : bool :=
  negb (String.eqb (originalLanguage m) (language u)) &&
  negb (truthy (translations m !! language u)) &&
  negb (isSystem m).

(** A [translateText] call in flight: the ChatRoom mount it was started
    from, the message as the effect saw it, and the target language. *)
Record TranslationRequest := mkTranslationRequest {
  req_generation : nat;
  req_message : Message;
  req_language : string
}.

#[export] Instance TranslationRequest_eq_dec : EqDecision TranslationRequest.
Proof. solve_decision. Defined.

(** The effect (lines 33-52) up to the [await]: when its guard holds it
    sets [isTranslating] and calls [translateText(message.text,
    currentUser.language)]. *)
Definition bubbleEffect (gen : nat) (m : Message) (u : User) (isTranslating : bool)
    : option TranslationRequest :=
  if needsTranslation m u && negb isTranslating
  then Some (mkTranslationRequest gen m (language u))
  else None.

Section WriteBack.
Context (translate : string -> string -> GenerateOutcome -> string).

(** [updatedMessage] (lines 39-45): the captured [message] with the
    translation added, built after the [await]. *)
Definition updatedMessage (req : TranslationRequest) (o : GenerateOutcome) : Message :=
  withTranslation (req_message req) (req_language req)
    (translate (text (req_message req)) (req_language req) o).
End WriteBack.

(** ** The rendered bubble *)

Inductive BubbleBody :=
| BodyPending                 (** the three bouncing dots *)
| BodyText (s : string).

Inductive BubbleView :=
| SystemPill (s : string)     (** lines 54-62 *)
| ChatBubble (mine : bool) (senderLabel : option string) (time : N)
    (body : BubbleBody) (badge : option string).

(** [s.toUpperCase()] on ASCII letters. *)
Definition ascii_upper (c : ascii) : ascii :=
  let n := nat_of_ascii c in
  if Nat.leb 97 n && Nat.leb n 122 then ascii_of_nat (n - 32) else c.

Fixpoint toUpperCase (s : string) : string :=
  match s with
  | EmptyString => EmptyString
  | String c s' => String (ascii_upper c) (toUpperCase s')
  end.

(** The returned markup (lines 54-105). *)
Definition renderBubble (m : Message) (u : User) (isTranslating : bool) : BubbleView :=
  if isSystem m then SystemPill (displayedText m u)
  else ChatBubble (isMine m u)
         (if isMine m u then None else Some (senderName m))
         (timestamp m)
         (if isTranslating then BodyPending else BodyText (displayedText m u))
         (if negb (isMine m u) && negb (String.eqb (originalLanguage m) (language u))
          then Some ("Translated from " ++ toUpperCase (originalLanguage m))
          else None).

(** ** Lemmas *)

Lemma needsTranslation_true m u :
  needsTranslation m u = true ->
  originalLanguage m <> language u /\ truthy (translations m !! language u) = false /\
  senderId m <> SYSTEM_ID.
Proof.
  unfold needsTranslation, isSystem.
  destruct (String.eqb_spec (originalLanguage m) (language u)),
    (truthy (translations m !! language u)), (String.eqb_spec (senderId m) SYSTEM_ID);
    simpl; naive_solver.
Qed.

Lemma bubbleEffect_Some gen m u b req :
  bubbleEffect gen m u b = Some req ->
  req = mkTranslationRequest gen m (language u) /\ needsTranslation m u = true /\ b = false.
Proof.
  unfold bubbleEffect. destruct (needsTranslation m u), b; simpl; naive_solver.
Qed.

Lemma updatedMessage_extends translate `{!Translator translate} req o :
  translations (req_message req) !! req_language req = None ->
  extends (req_message req) (updatedMessage translate req o).
Proof. intros H. by apply withTranslation_extends. Qed.

Lemma updatedMessage_cache_nonempty translate `{!Translator translate} req o :
  cache_nonempty (req_message req) -> text (req_message req) <> "" ->
  cache_nonempty (updatedMessage translate req o).
Proof. intros Hc Ht. apply cache_nonempty_insert; [done|]. by apply translate_nonempty. Qed.

(** ** Theorems *)

(** C26: on a well-formed cache, the code's decision rule is the spec's
    (section 4.2): translate exactly when the message is not a system
    message, is in another language than the viewer's, and has no cached
    entry for the viewer's language. *)
Theorem needsTranslation_iff m u :
  cache_nonempty m ->
  needsTranslation m u = true <->
  senderId m <> SYSTEM_ID /\ originalLanguage m <> language u /\
  translations m !! language u = None.
Proof.
  intros Hc. split.
  - intros (H1 & H2 & H3)%needsTranslation_true. split_and!; [done|done|].
    by apply truthy_cache.
  - intros (H1 & H2 & H3). unfold needsTranslation, isSystem.
    rewrite (proj2 (truthy_cache m _ Hc) H3).
    destruct (String.eqb_spec (originalLanguage m) (language u)),
      (String.eqb_spec (senderId m) SYSTEM_ID); simpl; congruence.
Qed.

(** C27: a viewer whose language is the message's original language sees
    the canonical text, and the bubble starts no translation (spec section
    8, first property). *)
Theorem own_language_shows_text m u gen b :
  originalLanguage m = language u ->
  displayedText m u = text m /\ needsTranslation m u = false /\ bubbleEffect gen m u b = None.
Proof.
  intros Heq. unfold displayedText, bubbleEffect, needsTranslation.
  rewrite Heq, String.eqb_refl. done.
Qed.

(** C28: the joining user's welcome message, whose original language is
    English, is shown to a non-English viewer as the Georgian sentence the
    cache was seeded with, whatever the viewer's language. *)
Theorem welcome_shown_in_georgian u now :
  language u <> "en" ->
  displayedText (welcomeMsg u now) u = nickname u ++ " შემოვიდა ჩათში!".
Proof.
  intros Hne. unfold displayedText, welcomeMsg. cbn [originalLanguage translations text].
  case_streq as Heq; [congruence|].
  rewrite lookup_singleton_eq. apply js_or_Some.
  by apply string_app_nonempty_r.
Qed.

Lemma needsTranslation_iff_witness :
  needsTranslation demo_hello (mkUser "v9v9v9v9v" "Luc" "fr" "Français") = true.
Proof. apply needsTranslation_iff; decide_by_eval. Defined.

Lemma own_language_shows_text_witness :
  displayedText demo_hello demo_user_en = "hello".
Proof. apply (own_language_shows_text demo_hello demo_user_en 0 false). reflexivity. Defined.

Lemma welcome_shown_in_georgian_witness :
  displayedText (welcomeMsg (mkUser "q1w2e3r4t" "Luc" "fr" "Français") 7)
    (mkUser "q1w2e3r4t" "Luc" "fr" "Français") = "Luc" ++ " შემოვიდა ჩათში!".
Proof. apply welcome_shown_in_georgian. decide_by_eval. Defined.
