(* ===== verification/Session.v ===== *)
(** The whole program in one tab: [App] with its [JoinScreen] or
    [ChatRoom], the [MessageBubble]s of the mounted ChatRoom, the pending
    [setTimeout] callbacks and the [translateText] promises in flight.
    [step] maps a state and an event (a user action, an effect run, a timer
    or a promise settling) to the next state, [None] when the event cannot
    occur there.  The section is parametrised by the translation function;
    the program is [step translateText].

    The theorems: the invariant [session_inv] of every reachable state and
    what it gives (no call for an announcement or into a message's own
    language, the [isTranslating] flags are exactly the calls in flight,
    logged messages are well formed); one translation completes in two
    steps ([translation_completes]); with fresh ids the canonical log only
    grows ([fresh_inv]); and, when a call outlives the ChatRoom that
    started it, the stale write-back erases a cached entry and calls the
    translator again ([stale_writeback_erases]) and a rejoin repeats a call
    still in flight ([rejoin_repeats_call]).  The executions where the user
    leaves only when nothing is in flight are in [Settled.v]. *)

From stdpp Require Import base gmap strings list.
From S2P Require Import Spec2Rocq Types Translator Store Forms Bubble.

Open Scope string_scope.

Record Session := mkSession {
  app : AppState;
  joinForm : JoinScreenState;
  chatForm : ChatRoomState;
  (** ids of the mounted bubbles whose [isTranslating] is [true] *)
  translating : gset string;
  (** the ChatRoom mount: incremented when it unmounts (logout) *)
  generation : nat;
  (** [translateText] calls whose promise has not settled *)
  inflight : list TranslationRequest;
  (** every [translateText] call made so far *)
  calls : list TranslationRequest
}.

Definition initialSession : Session :=
  mkSession initialApp initialJoinScreen initialChatRoom ∅ 0 [] [].

Inductive Event :=
| EvTypeNickname (v : string)          (** JoinScreen nickname [onChange] *)
| EvSelectLanguage (i : nat)           (** JoinScreen language button [i] *)
| EvSubmitJoin (rnd : string) (now : N)  (** JoinScreen submit *)
| EvTypeMessage (v : string)           (** ChatRoom input [onChange] *)
| EvSubmitMessage (rnd : string) (now : N)  (** ChatRoom submit *)
| EvLogout                             (** ChatRoom leave button *)
| EvBotTimer (now : N)                 (** a pending [setTimeout] fires *)
| EvEffect (i : nat)                   (** the effect of the bubble of [messages[i]] runs *)
| EvResolve (k : nat) (o : GenerateOutcome).  (** the [k]-th call in flight settles *)

Definition loggedIn (s : Session) : bool := bool_decide (is_Some (currentUser (app s))).

Section Step.
Context (translate : string -> string -> GenerateOutcome -> string).

Definition step (s : Session) (e : Event) : option Session :=
  match e with
  | EvTypeNickname v =>
      if loggedIn s then None else Some {| s with joinForm := setNickname v (joinForm s) |}
  | EvSelectLanguage i =>
      if loggedIn s then None else Some {| s with joinForm := selectLanguage i (joinForm s) |}
  | EvSubmitJoin rnd now =>
      if loggedIn s then None else
      match handleSubmit rnd (joinForm s) with
      | None => Some s
      | Some u =>
          (* App renders ChatRoom: it mounts with fresh state *)
          Some {| s with app := handleJoin u now (app s); chatForm := initialChatRoom;
                         translating := ∅ |}
      end
  | EvTypeMessage v =>
      if loggedIn s then Some {| s with chatForm := setInputText v (chatForm s) |} else None
  | EvSubmitMessage rnd now =>
      if loggedIn s then
        match handleSend (chatForm s) with
        | (cf, None) => Some {| s with chatForm := cf |}
        | (cf, Some t) => Some {| s with chatForm := cf; app := handleSendMessage t rnd now (app s) |}
        end
      else None
  | EvLogout =>
      if loggedIn s then
        (* ChatRoom and its bubbles unmount, JoinScreen mounts afresh *)
        Some {| s with app := handleLogout (app s); joinForm := initialJoinScreen;
                       translating := ∅; generation := S (generation s) |}
      else None
  | EvBotTimer now =>
      match fireBotTimer now (app s) with
      | Some a => Some {| s with app := a |}
      | None => None
      end
  | EvEffect i =>
      match currentUser (app s), messages (app s) !! i with
      | Some u, Some m =>
          match bubbleEffect (generation s) m u (bool_decide (msg_id m ∈ translating s)) with
          | None => Some s
          | Some req =>
              Some {| s with translating := {[ msg_id m ]} ∪ translating s;
                             inflight := inflight s ++ [req];
                             calls := calls s ++ [req] |}
          end
      | _, _ => None
      end
  | EvResolve k o =>
      match inflight s !! k with
      | None => None
      | Some req =>
          (* [onUpdate(updatedMessage); setIsTranslating(false)]; the
             second is a no-op on a bubble that has been unmounted *)
          Some {| s with app := handleUpdateMessage (updatedMessage translate req o) (app s);
                         inflight := delete k (inflight s);
                         translating :=
                           if Nat.eqb (req_generation req) (generation s)
                           then translating s ∖ {[ msg_id (req_message req) ]}
                           else translating s |}
      end
  end.

Fixpoint run (s : Session) (es : list Event) : option Session :=
  match es with
  | [] => Some s
  | e :: es' => match step s e with Some s' => run s' es' | None => None end
  end.

Definition step_rel (s s' : Session) : Prop := exists e, step s e = Some s'.

Definition reachable (s : Session) : Prop := rtc step_rel initialSession s.

(** What each event does when it happens: one constructor per branch of
    [step] that returns a state. *)
Inductive step_view (s : Session) : Event -> Session -> Prop :=
| SVNickname v : currentUser (app s) = None ->
    step_view s (EvTypeNickname v) {| s with joinForm := setNickname v (joinForm s) |}
| SVSelect i : currentUser (app s) = None ->
    step_view s (EvSelectLanguage i) {| s with joinForm := selectLanguage i (joinForm s) |}
| SVJoin rnd now u : currentUser (app s) = None -> handleSubmit rnd (joinForm s) = Some u ->
    step_view s (EvSubmitJoin rnd now)
      {| s with app := handleJoin u now (app s); chatForm := initialChatRoom; translating := ∅ |}
| SVJoinBlank rnd now : currentUser (app s) = None -> handleSubmit rnd (joinForm s) = None ->
    step_view s (EvSubmitJoin rnd now) s
| SVTypeMessage v u : currentUser (app s) = Some u ->
    step_view s (EvTypeMessage v) {| s with chatForm := setInputText v (chatForm s) |}
| SVSend rnd now u cf t : currentUser (app s) = Some u -> handleSend (chatForm s) = (cf, Some t) ->
    step_view s (EvSubmitMessage rnd now)
      {| s with chatForm := cf; app := handleSendMessage t rnd now (app s) |}
| SVSendBlank rnd now u cf : currentUser (app s) = Some u -> handleSend (chatForm s) = (cf, None) ->
    step_view s (EvSubmitMessage rnd now) {| s with chatForm := cf |}
| SVLogout u : currentUser (app s) = Some u ->
    step_view s EvLogout
      {| s with app := handleLogout (app s); joinForm := initialJoinScreen;
                translating := ∅; generation := S (generation s) |}
| SVBot now k : botTimers (app s) = S k ->
    step_view s (EvBotTimer now)
      {| s with app := mkAppState (currentUser (app s)) (messages (app s) ++ [botMsg now])%list k |}
| SVEffect i u m req : currentUser (app s) = Some u -> messages (app s) !! i = Some m ->
    bubbleEffect (generation s) m u (bool_decide (msg_id m ∈ translating s)) = Some req ->
    step_view s (EvEffect i)
      {| s with translating := {[ msg_id m ]} ∪ translating s;
                inflight := inflight s ++ [req]; calls := calls s ++ [req] |}
| SVEffectIdle i u m : currentUser (app s) = Some u -> messages (app s) !! i = Some m ->
    bubbleEffect (generation s) m u (bool_decide (msg_id m ∈ translating s)) = None ->
    step_view s (EvEffect i) s
| SVResolve k o req : inflight s !! k = Some req ->
    step_view s (EvResolve k o)
      {| s with app := handleUpdateMessage (updatedMessage translate req o) (app s);
                inflight := delete k (inflight s);
                translating := if Nat.eqb (req_generation req) (generation s)
                               then translating s ∖ {[ msg_id (req_message req) ]}
                               else translating s |}.

Lemma step_view_of s e s' : step s e = Some s' -> step_view s e s'.
Proof.
  unfold step, loggedIn. intros Hstep.
  destruct e as [v|i|rnd now|v|rnd now| |now|i|k o].
  1,2: case_bool_decide as Hin; simplify_eq; constructor; by apply eq_None_not_Some.
  - case_bool_decide as Hin; [done|]. apply eq_None_not_Some in Hin.
    destruct (handleSubmit rnd (joinForm s)) eqn:Hs; simplify_eq; by constructor.
  - case_bool_decide as Hin; simplify_eq. destruct Hin as [u Hu]. by econstructor.
  - case_bool_decide as Hin; [|done]. destruct Hin as [u Hu].
    destruct (handleSend (chatForm s)) as [cf [t|]] eqn:Hs; simplify_eq; by econstructor.
  - case_bool_decide as Hin; simplify_eq. destruct Hin as [u Hu]. by econstructor.
  - destruct (fireBotTimer now (app s)) as [a|] eqn:Hf; simplify_eq.
    unfold fireBotTimer in Hf. destruct (botTimers (app s)) eqn:Hb; simplify_eq. by constructor.
  - destruct (currentUser (app s)) as [u|] eqn:Hu; [|by destruct (messages (app s) !! i)].
    destruct (messages (app s) !! i) as [m|] eqn:Hi; [|simplify_eq/=].
    destruct (bubbleEffect _ _ _ _) as [req|] eqn:Heff; simplify_eq; by econstructor.
  - destruct (inflight s !! k) as [req|] eqn:Hk; simplify_eq. by constructor.
Qed.
End Step.

(** ** Environment assumptions for the stronger theorems *)

(** The id of the message an event may create. *)
Definition created_id (e : Event) : option string :=
  match e with
  | EvSubmitJoin _ now => Some ("system-" ++ num_to_string now)
  | EvSubmitMessage rnd _ => Some ("msg-" ++ rnd)
  | EvBotTimer now => Some ("bot-" ++ num_to_string now)
  | _ => None
  end.

(** The clock and the random generator give an id not in the log. *)
Definition fresh_event (s : Session) (e : Event) : Prop :=
  match created_id e with
  | Some i => i ∉ ids (messages (app s))
  | None => True
  end.

(** The user leaves only when no translation is in flight. *)
Definition settled_event (s : Session) (e : Event) : Prop :=
  match e with
  | EvLogout => inflight s = []
  | _ => True
  end.

(** The (message id, language) pair of a call. *)
Definition call_key (r : TranslationRequest) : string * string :=
  (msg_id (req_message r), req_language r).

(** Ids of the calls in [l] started by the ChatRoom mount [g]. *)
Definition ids_of_generation (g : nat) (l : list TranslationRequest) : list string :=
  (fun r => msg_id (req_message r)) <$> filter (fun r => req_generation r = g) l.

(** Ids of the calls in flight started by the mounted ChatRoom. *)
Definition current_ids (s : Session) : list string := ids_of_generation (generation s) (inflight s).

(** ** Invariants of every reachable state *)

(** A logged message: its cache holds no empty string, and a message that
    is not an announcement has a non-empty text and satisfies the spec's
    self-translation invariant. *)
Definition msg_wf (m : Message) : Prop :=
  cache_nonempty m /\ (senderId m <> SYSTEM_ID -> text m <> "" /\ self_translation_ok m).

(** A call to the translator: never for an announcement, never into the
    message's own language, on a non-empty text, from a mount that has
    happened. *)
Definition req_wf (g : nat) (r : TranslationRequest) : Prop :=
  senderId (req_message r) <> SYSTEM_ID /\
  originalLanguage (req_message r) <> req_language r /\
  text (req_message r) <> "" /\ cache_nonempty (req_message r) /\
  self_translation_ok (req_message r) /\ req_generation r <= g.

Record session_inv (s : Session) : Prop := {
  sinv_msgs : Forall msg_wf (messages (app s));
  sinv_calls : Forall (req_wf (generation s)) (calls s);
  sinv_inflight : inflight s ⊆ calls s;
  sinv_flags : forall i, i ∈ translating s <-> i ∈ current_ids s;
  sinv_nodup : NoDup (current_ids s);
  sinv_out : currentUser (app s) = None -> current_ids s = []
}.

Lemma ids_of_generation_app g l1 l2 :
  ids_of_generation g (l1 ++ l2)%list = (ids_of_generation g l1 ++ ids_of_generation g l2)%list.
Proof. unfold ids_of_generation. by rewrite filter_app, fmap_app. Qed.

Lemma ids_of_generation_delete g l k r :
  l !! k = Some r ->
  ids_of_generation g l ≡ₚ
  ((if decide (req_generation r = g) then [msg_id (req_message r)] else []) ++
   ids_of_generation g (delete k l))%list.
Proof.
  intros Hk. unfold ids_of_generation.
  rewrite (delete_Permutation l k r Hk) at 1. rewrite filter_cons.
  by destruct (decide (req_generation r = g)).
Qed.

Lemma ids_of_generation_old g l :
  Forall (fun r => req_generation r <= g) l -> ids_of_generation (S g) l = [].
Proof.
  unfold ids_of_generation. induction 1 as [|r l Hr Hl IH]; [done|].
  rewrite filter_cons, decide_False by lia. done.
Qed.

Lemma msg_wf_withTranslation m L v :
  msg_wf m -> senderId m <> SYSTEM_ID -> originalLanguage m <> L -> v <> "" ->
  msg_wf (withTranslation m L v).
Proof.
  intros [Hc Hs] Hsys HL Hv. split; [by apply cache_nonempty_insert|].
  intros _. destruct (Hs Hsys) as [Ht Hself]. split; [done|].
  unfold self_translation_ok. simpl. by rewrite lookup_insert_ne.
Qed.

Lemma req_wf_msg_wf g r : req_wf g r -> msg_wf (req_message r).
Proof. intros (Hs & _ & Ht & Hc & Hself & _). split; [done|]. auto. Qed.

Lemma req_wf_mono g g' r : g <= g' -> req_wf g r -> req_wf g' r.
Proof. intros Hg (H1 & H2 & H3 & H4 & H5 & H6). split_and!; auto with lia. Qed.

Lemma welcomeMsg_wf u now : msg_wf (welcomeMsg u now).
Proof.
  split; [|done]. unfold cache_nonempty, welcomeMsg. simpl.
  apply map_Forall_singleton. by apply string_app_nonempty_r.
Qed.

Lemma newMessage_wf u t rnd now : t <> "" -> msg_wf (newMessage u t rnd now).
Proof.
  intros Ht. split.
  - unfold cache_nonempty. simpl. by apply map_Forall_singleton.
  - intros _. split; [done|]. right. simpl. apply lookup_singleton_eq.
Qed.

Lemma botMsg_wf now : msg_wf (botMsg now).
Proof. split; [apply map_Forall_empty|]. intros _. split; [done|]. by left. Qed.

#[export] Hint Resolve welcomeMsg_wf newMessage_wf botMsg_wf req_wf_msg_wf : chat.

Lemma session_inv_initial : session_inv initialSession.
Proof.
  constructor; simpl; [constructor|constructor|done| |constructor|done].
  intros i. unfold current_ids. simpl. set_solver.
Qed.

(** Steps that change only the form states. *)
Lemma session_inv_forms s jf cf :
  session_inv s -> session_inv {| s with joinForm := jf; chatForm := cf |}.
Proof. intros []. by constructor. Qed.

(** Steps that append one well-formed message and keep the user logged in
    or logged out. *)
Lemma session_inv_append s a m :
  session_inv s -> messages a = (messages (app s) ++ [m])%list -> msg_wf m ->
  currentUser a = currentUser (app s) ->
  session_inv {| s with app := a |}.
Proof.
  intros [] Ha Hm Hu. constructor; simpl; try done.
  - rewrite Ha. by apply Forall_app_2; [|constructor].
  - by rewrite Hu.
Qed.

Lemma session_inv_join s u now :
  session_inv s -> currentUser (app s) = None ->
  session_inv {| s with app := handleJoin u now (app s); chatForm := initialChatRoom;
                        translating := ∅ |}.
Proof.
  intros [] Hout. constructor; simpl; try done.
  - apply Forall_app_2; [done|]. constructor; [apply welcomeMsg_wf|done].
  - intros i. unfold current_ids in *. simpl. rewrite sinv_out0 by done. set_solver.
Qed.

Lemma session_inv_logout s :
  session_inv s ->
  session_inv {| s with app := handleLogout (app s); joinForm := initialJoinScreen;
                        translating := ∅; generation := S (generation s) |}.
Proof.
  intros []. assert (current_ids {| s with generation := S (generation s) |} = []) as Hnil.
  { unfold current_ids. simpl. apply ids_of_generation_old.
    apply Forall_forall. intros r Hr.
    apply sinv_inflight0 in Hr. rewrite Forall_forall in sinv_calls0.
    destruct (sinv_calls0 r Hr) as (_ & _ & _ & _ & _ & Hg). done. }
  constructor; simpl; try done.
  all: unfold current_ids in *; simpl in *; rewrite ?Hnil.
  all: first [ eapply Forall_impl; [done|]; intros r; apply req_wf_mono; lia
             | set_solver | constructor ].
Qed.

Lemma list_subseteq_snoc {A} (l1 l2 : list A) x : l1 ⊆ l2 -> (l1 ++ [x])%list ⊆ (l2 ++ [x])%list.
Proof. intros H y. rewrite !elem_of_app. naive_solver. Qed.

Lemma session_inv_effect s u i m req :
  session_inv s -> currentUser (app s) = Some u -> messages (app s) !! i = Some m ->
  bubbleEffect (generation s) m u (bool_decide (msg_id m ∈ translating s)) = Some req ->
  session_inv {| s with translating := {[ msg_id m ]} ∪ translating s;
                        inflight := inflight s ++ [req]; calls := calls s ++ [req] |}.
Proof.
  intros [] Hu Hi Heff.
  apply bubbleEffect_Some in Heff as (-> & Hneed & Hflag%bool_decide_eq_false).
  apply needsTranslation_true in Hneed as (HL & _ & Hsys).
  destruct (Forall_lookup_1 _ _ _ _ sinv_msgs0 Hi) as [Hc Hwf].
  destruct (Hwf Hsys) as [Ht Hself].
  assert (ids_of_generation (generation s)
            (inflight s ++ [mkTranslationRequest (generation s) m (language u)])
          = current_ids s ++ [msg_id m])%list as Hcur.
  { rewrite ids_of_generation_app. unfold ids_of_generation at 2.
    simpl. rewrite filter_cons, decide_True by done. done. }
  constructor; simpl; try done; try (unfold current_ids at 1; simpl).
  - apply Forall_app_2; [done|]. constructor; [|done]. by split_and!.
  - by apply list_subseteq_snoc.
  - intros j. rewrite Hcur, elem_of_app, elem_of_union, elem_of_singleton, list_elem_of_singleton.
    rewrite sinv_flags0. naive_solver.
  - rewrite Hcur. apply NoDup_app. split_and!; [done| |apply NoDup_singleton].
    intros x Hx ->%list_elem_of_singleton. apply Hflag, sinv_flags0, Hx.
  - congruence.
Qed.

Lemma elem_of_delete_list {A} (l : list A) k x y : l !! k = Some y -> x ∈ delete k l -> x ∈ l.
Proof. intros Hk Hx. rewrite (delete_Permutation _ _ _ Hk). by apply list_elem_of_further. Qed.

Lemma session_inv_resolve translate `{!Translator translate} s k req o :
  session_inv s -> inflight s !! k = Some req ->
  session_inv {| s with app := handleUpdateMessage (updatedMessage translate req o) (app s);
                        inflight := delete k (inflight s);
                        translating := if Nat.eqb (req_generation req) (generation s)
                                       then translating s ∖ {[ msg_id (req_message req) ]}
                                       else translating s |}.
Proof.
  intros [] Hk.
  assert (req ∈ calls s) as Hreq by (apply sinv_inflight0; by eapply list_elem_of_lookup_2).
  pose proof (proj1 (Forall_forall _ _) sinv_calls0 req Hreq) as Hwf.
  pose proof (ids_of_generation_delete (generation s) _ _ _ Hk) as Hperm.
  fold (current_ids s) in Hperm.
  set (ids' := ids_of_generation (generation s) (delete k (inflight s))) in *.
  assert (forall j, j ∈ current_ids s <->
            (req_generation req = generation s /\ j = msg_id (req_message req)) \/ j ∈ ids')
    as Hmem.
  { intros j. rewrite Hperm, elem_of_app.
    destruct (decide _); rewrite ?list_elem_of_singleton; set_solver. }
  constructor; simpl; try done; try (unfold current_ids at 1; simpl; fold ids').
  - apply Forall_replace_where; [|done].
    pose proof (req_wf_msg_wf _ _ Hwf) as Hmwf.
    destruct Hwf as (Hsys & HL & Ht & Hc & Hself & _).
    apply msg_wf_withTranslation; [done|done|done|].
    by apply translate_nonempty.
  - intros x Hx. apply sinv_inflight0. by eapply elem_of_delete_list.
  - intros j. destruct (Nat.eqb_spec (req_generation req) (generation s)) as [Hg|Hg].
    + rewrite elem_of_difference, elem_of_singleton, sinv_flags0, Hmem.
      rewrite Hperm, decide_True in sinv_nodup0 by done.
      apply NoDup_cons in sinv_nodup0 as [Hnot _]. naive_solver.
    + rewrite sinv_flags0, Hmem. naive_solver.
  - rewrite Hperm in sinv_nodup0. apply NoDup_app in sinv_nodup0. naive_solver.
  - intros Hout. specialize (sinv_out0 Hout). rewrite sinv_out0 in Hperm.
    symmetry in Hperm. apply Permutation_nil_r in Hperm. by apply app_eq_nil in Hperm as [_ ?].
Qed.

(** Every step of the program preserves [session_inv]. *)
Lemma session_inv_step translate `{!Translator translate} s e s' :
  session_inv s -> step translate s e = Some s' -> session_inv s'.
Proof.
  intros Hinv Hstep.
  destruct (step_view_of translate s e s' Hstep) as
    [v Hout|i Hout|rnd now u Hout Hs|rnd now|v u Hu|rnd now u cf t Hu Hsend|rnd now u cf Hu Hsend
    |u Hu|now k Hb|i u m req Hu Hi Heff|i u m|k o req Hk];
    try done; try by apply session_inv_forms.
  - by apply session_inv_join.
  - eapply (session_inv_append {| s with chatForm := cf |}).
    + by apply (session_inv_forms s (joinForm s) cf).
    + simpl. unfold handleSendMessage. by rewrite Hu.
    + apply newMessage_wf. by eapply handleSend_Some.
    + simpl. unfold handleSendMessage. by rewrite Hu.
  - by apply session_inv_logout.
  - eapply session_inv_append; [done|reflexivity|apply botMsg_wf|done].
  - by eapply session_inv_effect.
  - by apply session_inv_resolve.
Qed.

Lemma reachable_session_inv translate `{!Translator translate} s :
  reachable translate s -> session_inv s.
Proof.
  apply (rtc_invariant _ session_inv); [apply session_inv_initial|].
  intros x y Hx [e He]. by eapply session_inv_step.
Qed.

Lemma run_app translate s es1 es2 :
  run translate s (es1 ++ es2) = run translate s es1 ≫= fun s1 => run translate s1 es2.
Proof.
  revert s. induction es1 as [|e es1 IH]; intros s; [done|].
  rewrite <- app_comm_cons. cbn [run]. destruct (step translate s e); [apply IH|done].
Qed.

Lemma run_rtc translate es s s' : run translate s es = Some s' -> rtc (step_rel translate) s s'.
Proof.
  revert s. induction es as [|e es IH]; intros s Hrun; simpl in Hrun; [by simplify_eq|].
  destruct (step translate s e) as [s1|] eqn:He; [|done].
  eapply rtc_l; [by exists e|]. by apply IH.
Qed.

Lemma run_reachable translate es s :
  run translate initialSession es = Some s -> reachable translate s.
Proof. apply run_rtc. Qed.

(** ** Demo executions *)

(** Ana (English) joins and says " hello "; she leaves; Luc (French) joins
    and his bubble of Ana's message starts a translation. *)
Definition demo_trace : list Event :=
  [EvTypeNickname "Ana"; EvSelectLanguage 1; EvSubmitJoin "u1k2j3h4g" 1;
   EvTypeMessage " hello "; EvSubmitMessage "abc123def" 2; EvLogout;
   EvTypeNickname "Luc"; EvSelectLanguage 3; EvSubmitJoin "luc8h3n2q" 3; EvEffect 1].

Definition demo_session : Session :=
  default initialSession (run translateText initialSession demo_trace).

Lemma demo_session_run : run translateText initialSession demo_trace = Some demo_session.
Proof. vm_compute. reflexivity. Qed.

Lemma demo_session_reachable : reachable translateText demo_session.
Proof. eapply run_reachable. apply demo_session_run. Qed.

(** ** Theorems on every reachable state *)

(** The effect of a bubble whose guard holds starts the call. *)
Lemma effect_starts_call translate s u i m :
  currentUser (app s) = Some u -> messages (app s) !! i = Some m ->
  needsTranslation m u = true -> msg_id m ∉ translating s ->
  let req := mkTranslationRequest (generation s) m (language u) in
  step translate s (EvEffect i) =
    Some (mkSession (app s) (joinForm s) (chatForm s) ({[ msg_id m ]} ∪ translating s)
            (generation s) (inflight s ++ [req]) (calls s ++ [req])).
Proof.
  intros Hu Hi Hneed Hflag. simpl. rewrite Hu, Hi. unfold bubbleEffect.
  by rewrite Hneed, bool_decide_false.
Qed.

(** The write-back of a settled call replaces the [i]-th message when it
    has the call's id. *)
Lemma resolve_replaces translate s k o req i m :
  inflight s !! k = Some req -> messages (app s) !! i = Some m ->
  msg_id m = msg_id (req_message req) ->
  exists s', step translate s (EvResolve k o) = Some s' /\
    messages (app s') !! i = Some (updatedMessage translate req o) /\
    currentUser (app s') = currentUser (app s) /\
    translating s' ⊆ translating s /\ calls s' = calls s.
Proof.
  intros Hk Hi Hid. simpl. rewrite Hk. eexists. split; [done|]. cbn [app].
  unfold handleUpdateMessage. cbn [messages currentUser translating calls].
  rewrite lookup_replace_where, Hi. cbn. rewrite Hid, String.eqb_refl.
  split_and!; [done|done| |done]. case_match; set_solver.
Qed.

(** C5: no announcement ([senderId = "system"]) is ever sent to the
    translator, whatever the schedule of renders, timers and promises. *)
Theorem system_messages_never_translated translate `{!Translator translate} s r :
  reachable translate s -> r ∈ calls s -> senderId (req_message r) <> SYSTEM_ID.
Proof.
  intros Hr Hin. destruct (reachable_session_inv _ _ Hr) as [_ Hcalls _ _ _ _].
  rewrite Forall_forall in Hcalls. by destruct (Hcalls r Hin).
Qed.

(** C6: a message is never sent to the translator for its own original
    language, and never with an empty text. *)
Theorem same_language_never_translated translate `{!Translator translate} s r :
  reachable translate s -> r ∈ calls s ->
  originalLanguage (req_message r) <> req_language r /\ text (req_message r) <> "".
Proof.
  intros Hr Hin. destruct (reachable_session_inv _ _ Hr) as [_ Hcalls _ _ _ _].
  rewrite Forall_forall in Hcalls. by destruct (Hcalls r Hin) as (_ & ? & ? & _).
Qed.

(** C2: in the mounted ChatRoom, the bubbles whose [isTranslating] is set
    are exactly the messages with a call in flight started by that mount,
    and no message has two such calls: the in-flight guard of the spec
    (section 5) holds per viewer session. *)
Theorem translating_flags_exact translate `{!Translator translate} s :
  reachable translate s ->
  NoDup (current_ids s) /\ (forall i, i ∈ translating s <-> i ∈ current_ids s).
Proof. intros Hr. destruct (reachable_session_inv _ _ Hr). done. Qed.

(** C4: every cached translation is non-empty, and every message that is
    not an announcement has a non-empty text and satisfies the spec's
    self-translation invariant ([translations[originalLanguage]] is absent
    or the text). *)
Theorem messages_well_formed translate `{!Translator translate} s m :
  reachable translate s -> m ∈ messages (app s) ->
  cache_nonempty m /\ (senderId m <> SYSTEM_ID -> text m <> "" /\ self_translation_ok m).
Proof.
  intros Hr Hin. destruct (reachable_session_inv _ _ Hr) as [Hmsgs _ _ _ _ _].
  rewrite Forall_forall in Hmsgs. by apply Hmsgs.
Qed.

(** C1: a message that needs translating for the logged-in viewer, and is
    not being translated, is translated in two steps: the bubble's effect
    starts the call, the promise settles (with any outcome, failures
    included), and the viewer then sees the result and needs nothing
    more. *)
Theorem translation_completes translate `{!Translator translate} s u i m o :
  reachable translate s -> currentUser (app s) = Some u ->
  messages (app s) !! i = Some m -> needsTranslation m u = true ->
  msg_id m ∉ translating s ->
  exists s', rtc (step_rel translate) s s' /\
    exists m', messages (app s') !! i = Some m' /\
      translations m' !! language u = Some (translate (text m) (language u) o) /\
      displayedText m' u = translate (text m) (language u) o /\
      needsTranslation m' u = false.
Proof.
  intros Hr Hu Hi Hneed Hflag.
  pose proof (reachable_session_inv translate s Hr) as Hs.
  pose proof (Forall_lookup_1 _ _ _ _ (sinv_msgs _ Hs) Hi) as [_ Hwf].
  pose proof (needsTranslation_true m u Hneed) as (HL & _ & Hsys).
  destruct (Hwf Hsys) as [Ht _].
  pose proof (translate_nonempty (text m) (language u) o Ht) as Hne.
  pose proof (effect_starts_call translate s u i m Hu Hi Hneed Hflag) as H1.
  set (req := mkTranslationRequest (generation s) m (language u)) in H1.
  destruct (resolve_replaces translate
              (mkSession (app s) (joinForm s) (chatForm s) ({[ msg_id m ]} ∪ translating s)
                 (generation s) (inflight s ++ [req]) (calls s ++ [req]))
              (length (inflight s)) o req i m) as (s2 & H2 & Hi2 & _); [|done|done|].
  { simpl. by rewrite lookup_app_r, Nat.sub_diag by lia. }
  exists s2. split.
  { eapply rtc_l; [by exists (EvEffect i)|]. eapply rtc_l; [by eexists|apply rtc_refl]. }
  eexists. split; [exact Hi2|].
  unfold updatedMessage, displayedText, needsTranslation. simpl.
  rewrite lookup_insert_eq. split_and!; [done| |].
  - destruct (String.eqb_spec (originalLanguage m) (language u)); [done|]. by apply js_or_Some.
  - simpl. destruct (String.eqb_spec (translate (text m) (language u) o) ""); [done|].
    by rewrite andb_false_r, andb_false_l.
Qed.

(** C16: a stale write-back erases a cached translation and makes the
    translator be called again for it.  When a call settles after another
    entry of the same message has been cached (for the language [L] of the
    viewer now logged in, by another bubble), [handleUpdateMessage] writes
    back the message as the settled call captured it: the [i]-th message
    loses its [L] entry, and the viewer's bubble starts a new call for the
    pair (message id, [L]). *)
Theorem stale_writeback_erases translate `{!Translator translate} s k o req i m u :
  reachable translate s -> inflight s !! k = Some req -> currentUser (app s) = Some u ->
  messages (app s) !! i = Some m -> msg_id m = msg_id (req_message req) ->
  is_Some (translations m !! language u) ->
  translations (req_message req) !! language u = None -> req_language req <> language u ->
  originalLanguage (req_message req) <> language u -> msg_id m ∉ translating s ->
  exists s1 s2 r, step translate s (EvResolve k o) = Some s1 /\
    messages (app s1) !! i = Some (updatedMessage translate req o) /\
    translations (updatedMessage translate req o) !! language u = None /\
    step translate s1 (EvEffect i) = Some s2 /\
    calls s2 = (calls s ++ [r])%list /\ call_key r = (msg_id m, language u).
Proof.
  intros Hr Hk Hu Hi Hid _ HL Hreq Horig Hflag.
  pose proof (reachable_session_inv translate s Hr) as Hs.
  assert (req ∈ calls s) as Hin by (apply (sinv_inflight _ Hs); by eapply list_elem_of_lookup_2).
  destruct (proj1 (Forall_forall _ _) (sinv_calls _ Hs) req Hin) as [Hsys _].
  destruct (resolve_replaces translate s k o req i m Hk Hi Hid) as (s1 & H1 & Hi1 & Hu1 & Htr & Hc1).
  assert (translations (updatedMessage translate req o) !! language u = None) as Hnone.
  { simpl. by rewrite lookup_insert_ne by congruence. }
  assert (needsTranslation (updatedMessage translate req o) u = true) as Hneed.
  { unfold needsTranslation, isSystem. rewrite Hnone. simpl.
    by rewrite (proj2 (String.eqb_neq _ _) Horig), (proj2 (String.eqb_neq _ _) Hsys). }
  rewrite <- Hu1 in Hu.
  pose proof (effect_starts_call translate s1 u i _ Hu Hi1 Hneed) as H2.
  do 3 eexists. split_and!; [exact H1|exact Hi1|exact Hnone| | |].
  - apply H2. simpl. rewrite <- Hid. intros Hx. by apply Hflag, Htr.
  - simpl. by rewrite Hc1.
  - unfold call_key. simpl. by rewrite Hid.
Qed.

(** C17: the in-flight guard is per ChatRoom mount, so a call can be
    repeated while the first is still in flight.  A viewer whose bubble has
    a call in flight for message [m] leaves and joins again with the same
    language: the new ChatRoom's bubble for [m] calls the translator for
    the same (message id, language) pair, against the spec's "at most once
    per (m.id, L) for the lifetime of the session". *)
Theorem rejoin_repeats_call translate s u i m req j lang nick rnd now :
  currentUser (app s) = Some u -> messages (app s) !! i = Some m ->
  needsTranslation m u = true -> req ∈ inflight s -> call_key req = (msg_id m, language u) ->
  SUPPORTED_LANGUAGES !! j = Some lang -> code lang = language u -> trim nick <> "" ->
  exists s' r,
    run translate s [EvLogout; EvTypeNickname nick; EvSelectLanguage j; EvSubmitJoin rnd now;
                     EvEffect i] = Some s' /\
    req ∈ inflight s' /\ calls s' = (calls s ++ [r])%list /\ call_key r = call_key req.
Proof.
  intros Hu Hi Hneed Hreq Hkey Hj Hcode Hnick.
  set (u' := mkUser rnd (trim nick) (code lang) (label lang)).
  assert (needsTranslation m u' = true) as Hneed'.
  { revert Hneed. unfold needsTranslation. simpl. by rewrite Hcode. }
  assert ((messages (app s) ++ [welcomeMsg u' now])%list !! i = Some m) as Hi'.
  { by apply lookup_app_l_Some. }
  set (s4 := mkSession (handleJoin u' now (handleLogout (app s))) (mkJoinScreenState nick lang)
                initialChatRoom ∅ (S (generation s)) (inflight s) (calls s)).
  assert (run translate s [EvLogout; EvTypeNickname nick; EvSelectLanguage j; EvSubmitJoin rnd now]
          = Some s4) as H4.
  { cbn [run]. unfold step at 1, loggedIn. rewrite Hu, bool_decide_true by done.
    simpl. unfold selectLanguage. rewrite Hj. unfold handleSubmit. simpl.
    by rewrite (proj2 (String.eqb_neq _ _) Hnick). }
  change [EvLogout; EvTypeNickname nick; EvSelectLanguage j; EvSubmitJoin rnd now; EvEffect i]
    with ([EvLogout; EvTypeNickname nick; EvSelectLanguage j; EvSubmitJoin rnd now] ++ [EvEffect i])%list.
  rewrite run_app, H4. cbn [mbind option_bind run].
  rewrite (effect_starts_call translate s4 u' i m eq_refl Hi' Hneed' (not_elem_of_empty _)).
  do 2 eexists. split_and!; [reflexivity| |reflexivity|].
  - simpl. apply elem_of_app. by left.
  - rewrite Hkey. unfold call_key. simpl. by rewrite Hcode.
Qed.

Lemma system_messages_never_translated_witness :
  senderId (req_message (mkTranslationRequest 1 demo_hello "fr")) <> SYSTEM_ID.
Proof.
  apply (system_messages_never_translated translateText demo_session);
    [apply demo_session_reachable|vm_compute; left].
Defined.

(** ** Executions with fresh ids *)

Section Fresh.
Context (translate : string -> string -> GenerateOutcome -> string).

Definition fresh_step (s s' : Session) : Prop :=
  exists e, fresh_event s e /\ step translate s e = Some s'.

Definition fresh_reachable (s : Session) : Prop := rtc fresh_step initialSession s.

End Fresh.

(** Message ids are distinct, and the message a call in flight captured
    still has its canonical fields in the log. *)
Definition fresh_inv (s : Session) : Prop :=
  NoDup (ids (messages (app s))) /\
  forall r, r ∈ inflight s -> canonical (req_message r) ∈ canonical <$> messages (app s).

Lemma canonical_msg_id m m' : canonical m = canonical m' -> msg_id m = msg_id m'.
Proof. unfold canonical. congruence. Qed.

Lemma ids_of_canonical ms ms' : canonical <$> ms = canonical <$> ms' -> ids ms = ids ms'.
Proof.
  intros H. assert (forall l, ids l = (fun c => c.1.1.1.1.1) <$> (canonical <$> l)) as Hids.
  { intros l. unfold ids. rewrite <- list_fmap_compose. done. }
  by rewrite !Hids, H.
Qed.

Lemma elem_of_ids_unique ms m1 m2 :
  NoDup (ids ms) -> m1 ∈ ms -> m2 ∈ ms -> msg_id m1 = msg_id m2 -> m1 = m2.
Proof.
  intros Hnd [i Hi]%list_elem_of_lookup [j Hj]%list_elem_of_lookup Heq.
  assert (i = j) as <- by (eapply ids_lookup_inj; eauto). congruence.
Qed.

(** Writing back a message whose canonical fields are those of a logged
    message leaves the canonical projection of a log with distinct ids
    unchanged. *)
Lemma canonical_replace ms x m0 :
  NoDup (ids ms) -> m0 ∈ ms -> canonical m0 = canonical x ->
  canonical <$> replace_where (fun y => String.eqb (msg_id y) (msg_id x)) x ms = canonical <$> ms.
Proof.
  intros Hnd Hm0 Hc. apply list_eq. intros j.
  rewrite !list_lookup_fmap, lookup_replace_where.
  destruct (ms !! j) as [y|] eqn:Hj; simpl; [|done]. f_equal.
  case_streq as Hy; [|done].
  assert (y = m0) as ->; [|done].
  apply (elem_of_ids_unique ms); [done|by eapply list_elem_of_lookup_2|done|].
  rewrite Hy. symmetry. by apply canonical_msg_id.
Qed.

Lemma fresh_inv_initial : fresh_inv initialSession.
Proof. split; [constructor|]. intros r Hr. by apply elem_of_nil in Hr. Qed.

(** Appending a message with a fresh id. *)
Lemma fresh_append s s' m :
  fresh_inv s -> msg_id m ∉ ids (messages (app s)) ->
  messages (app s') = (messages (app s) ++ [m])%list -> inflight s' ⊆ inflight s ->
  fresh_inv s' /\ canonical <$> messages (app s) `prefix_of` canonical <$> messages (app s').
Proof.
  intros [Hnd Hin] Hfresh Hms Hinf. unfold fresh_inv. rewrite Hms. split; [split|].
  - rewrite ids_app. apply NoDup_app. split_and!; [done| |apply NoDup_singleton].
    intros x Hx ->%list_elem_of_singleton. done.
  - intros r Hr. rewrite fmap_app, elem_of_app. left. by apply Hin, Hinf.
  - rewrite fmap_app. by apply prefix_app_r.
Qed.

(** Steps that keep the log. *)
Lemma fresh_same_log s s' :
  fresh_inv s -> messages (app s') = messages (app s) ->
  (forall r, r ∈ inflight s' -> canonical (req_message r) ∈ canonical <$> messages (app s)) ->
  fresh_inv s' /\ canonical <$> messages (app s) `prefix_of` canonical <$> messages (app s').
Proof. intros [Hnd _] Hms Hinf. unfold fresh_inv. rewrite Hms. split; [split|done]; done. Qed.

(** Steps that keep the canonical projection of the log. *)
Lemma fresh_same_canonical s s' :
  fresh_inv s -> canonical <$> messages (app s') = canonical <$> messages (app s) ->
  inflight s' ⊆ inflight s ->
  fresh_inv s' /\ canonical <$> messages (app s) `prefix_of` canonical <$> messages (app s').
Proof.
  intros [Hnd Hin] Hc Hinf. unfold fresh_inv. rewrite Hc.
  split; [split|done]; [by rewrite (ids_of_canonical _ _ Hc)|].
  intros r Hr. by apply Hin, Hinf.
Qed.

(** With fresh ids, a call that settles keeps the canonical fields of the
    log. *)
Lemma fresh_resolve_canonical translate s k req o :
  fresh_inv s -> inflight s !! k = Some req ->
  canonical <$> messages (handleUpdateMessage (updatedMessage translate req o) (app s)) =
  canonical <$> messages (app s).
Proof.
  intros [Hnd Hin] Hk.
  destruct (proj1 (list_elem_of_fmap _ _ _) (Hin req ltac:(by eapply list_elem_of_lookup_2)))
    as (m0 & Hc & Hm0).
  unfold handleUpdateMessage. cbn [messages].
  apply (canonical_replace _ _ m0); [done|done|]. unfold updatedMessage.
  by rewrite canonical_withTranslation.
Qed.

Lemma fresh_inv_step translate s e s' :
  fresh_inv s -> fresh_event s e -> step translate s e = Some s' ->
  fresh_inv s' /\ canonical <$> messages (app s) `prefix_of` canonical <$> messages (app s').
Proof.
  intros Hinv Hfresh Hstep. unfold fresh_event in Hfresh.
  destruct (step_view_of translate s e s' Hstep) as
    [v Hout|i Hout|rnd now u Hout Hs|rnd now|v u Hu|rnd now u cf t Hu Hsend|rnd now u cf Hu Hsend
    |u Hu|now k Hb|i u m req Hu Hi Heff|i u m|k o req Hk]; simpl in Hfresh;
    try by apply (fresh_same_canonical s).
  - by apply (fresh_append _ _ (welcomeMsg u now)).
  - apply (fresh_append s _ (newMessage u t rnd now)); [done|done| |done].
    simpl. unfold handleSendMessage. by rewrite Hu.
  - by apply (fresh_append _ _ (botMsg now)).
  - apply bubbleEffect_Some in Heff as (-> & _). apply fresh_same_log; [done|done|].
    intros r. simpl. rewrite elem_of_app, list_elem_of_singleton. intros [Hr| ->].
    + by apply Hinv.
    + apply list_elem_of_fmap. exists m. split; [done|]. by eapply list_elem_of_lookup_2.
  - apply (fresh_same_canonical s); [done|by apply (fresh_resolve_canonical translate s k req o)|].
    intros r. simpl. by apply (elem_of_delete_list _ k r req).
Qed.

Lemma fresh_reachable_inv translate s : fresh_reachable translate s -> fresh_inv s.
Proof.
  apply (rtc_invariant (fresh_step translate) fresh_inv initialSession s); [apply fresh_inv_initial|].
  intros x y Hx (e' & Hf & He'). by eapply fresh_inv_step.
Qed.

(** C3: with fresh ids, every step keeps the canonical fields (id, sender,
    text, original language, timestamp) of every logged message and only
    appends at the end: the log's canonical projection before the step is a
    prefix of the one after, whatever the schedule of logins, logouts and
    translation completions. *)
Theorem canonical_log_append_only translate s e s' :
  fresh_reachable translate s -> fresh_event s e -> step translate s e = Some s' ->
  canonical <$> messages (app s) `prefix_of` canonical <$> messages (app s').
Proof.
  intros Hr Hfresh Hstep. by eapply fresh_inv_step; [apply (fresh_reachable_inv translate)|..].
Qed.
