(* ===== verification/Languages.v ===== *)
(** Language codes are values of the registry [SUPPORTED_LANGUAGES]
    ([src/types.ts]).  The code carries them as plain strings; the join
    form is the only place a user's language is chosen, and every other
    code in the program (a message's original language, the keys of its
    cache, the target of a call) is copied from a user's or is the
    literal ["en"].  [lang_inv] states that all of them are registry codes
    in every reachable state, which is the spec's "language codes validated
    against the supported-language registry at the boundary" (section 9). *)

From stdpp Require Import base gmap strings list.
From S2P Require Import Spec2Rocq Types Translator Store Forms Bubble Session.

Open Scope string_scope.

(** A user as [handleSubmit] builds them: the code and the label of one
    registry entry. *)
Definition user_lang_ok (u : User) : Prop :=
  exists o, o ∈ SUPPORTED_LANGUAGES /\ code o = language u /\ label o = languageLabel u.

(** Every language code a message carries is a registry code. *)
Definition msg_lang_ok (m : Message) : Prop :=
  originalLanguage m ∈ supported_codes /\
  map_Forall (fun L _ => L ∈ supported_codes) (translations m).

Definition req_lang_ok (r : TranslationRequest) : Prop :=
  req_language r ∈ supported_codes /\ msg_lang_ok (req_message r).

Record lang_inv (s : Session) : Prop := {
  linv_form : selectedLang (joinForm s) ∈ SUPPORTED_LANGUAGES;
  linv_user : forall u, currentUser (app s) = Some u -> user_lang_ok u;
  linv_msgs : Forall msg_lang_ok (messages (app s));
  linv_calls : Forall req_lang_ok (calls s)
}.

(** ** Lemmas *)

Lemma user_lang_ok_code u : user_lang_ok u -> language u ∈ supported_codes.
Proof. intros (o & Ho & Hc & _). apply list_elem_of_fmap. eauto. Qed.

Lemma en_supported : "en" ∈ supported_codes.
Proof. decide_by_eval. Qed.

Lemma firstLanguage_supported : firstLanguage ∈ SUPPORTED_LANGUAGES.
Proof. left. Qed.

Lemma handleSubmit_lang_ok rnd st u :
  selectedLang st ∈ SUPPORTED_LANGUAGES -> handleSubmit rnd st = Some u -> user_lang_ok u.
Proof.
  intros Hin Hs. unfold handleSubmit in Hs. case_streq; [done|].
  injection Hs as <-. by exists (selectedLang st).
Qed.

Lemma welcomeMsg_lang_ok u now : user_lang_ok u -> msg_lang_ok (welcomeMsg u now).
Proof.
  intros Hu. split; [apply en_supported|]. simpl.
  apply map_Forall_singleton. by apply user_lang_ok_code.
Qed.

Lemma newMessage_lang_ok u t rnd now : user_lang_ok u -> msg_lang_ok (newMessage u t rnd now).
Proof.
  intros Hu%user_lang_ok_code. split; [done|]. simpl. by apply map_Forall_singleton.
Qed.

Lemma botMsg_lang_ok now : msg_lang_ok (botMsg now).
Proof. split; [apply en_supported|apply map_Forall_empty]. Qed.

Lemma updatedMessage_lang_ok translate req o :
  req_lang_ok req -> msg_lang_ok (updatedMessage translate req o).
Proof.
  intros [HL [Ho Hc]]. split; [done|]. simpl. by apply map_Forall_insert_2.
Qed.

#[export] Hint Resolve user_lang_ok_code en_supported welcomeMsg_lang_ok newMessage_lang_ok
  botMsg_lang_ok updatedMessage_lang_ok : chat.

Lemma lang_inv_initial : lang_inv initialSession.
Proof.
  constructor; simpl; [apply firstLanguage_supported|done|constructor|constructor].
Qed.

(** Steps that append one message and keep the user. *)
Lemma lang_inv_append s s' m :
  lang_inv s -> selectedLang (joinForm s') ∈ SUPPORTED_LANGUAGES ->
  (forall u, currentUser (app s') = Some u -> user_lang_ok u) ->
  messages (app s') = (messages (app s) ++ [m])%list -> msg_lang_ok m -> calls s' = calls s ->
  lang_inv s'.
Proof.
  intros [] Hf Hu Hms Hm Hc. constructor; [done|done| |by rewrite Hc].
  rewrite Hms. apply Forall_app_2; [done|by constructor].
Qed.

Lemma lang_inv_step translate s e s' :
  session_inv s -> lang_inv s -> step translate s e = Some s' -> lang_inv s'.
Proof.
  intros Hs Hinv Hstep. pose proof Hinv as [Hf Hu Hms Hcalls].
  destruct (step_view_of translate s e s' Hstep) as
    [v Hout|i Hout|rnd now u Hout Hsub|rnd now|v u Hu'|rnd now u cf t Hu' Hsend|rnd now u cf Hu' Hsend
    |u Hu'|now k Hb|i u m req Hu' Hi Heff|i u m|k o req Hk]; try done.
  - constructor; try done. by apply (join_form_step_selected (joinForm s)); [|right; eexists].
  - pose proof (handleSubmit_lang_ok _ _ _ Hf Hsub).
    apply (lang_inv_append s _ (welcomeMsg u now)); auto with chat. simpl. naive_solver.
  - unfold handleSendMessage. rewrite Hu'.
    apply (lang_inv_append s _ (newMessage u t rnd now)); simpl; auto with chat.
    intros ? [= <-]. auto.
  - constructor; simpl; [apply firstLanguage_supported|intros ? [=]|done|done].
  - by apply (lang_inv_append s _ (botMsg now)); auto with chat.
  - apply bubbleEffect_Some in Heff as (-> & _). constructor; try done. simpl.
    apply Forall_app_2; [done|]. constructor; [|done]. split; simpl.
    + by apply user_lang_ok_code, Hu.
    + by apply (Forall_lookup_1 _ _ _ _ Hms Hi).
  - assert (req_lang_ok req) as Hreq.
    { apply (proj1 (Forall_forall _ _) Hcalls req), (sinv_inflight _ Hs).
      by eapply list_elem_of_lookup_2. }
    constructor; try done. simpl. apply Forall_replace_where; [|done].
    by apply updatedMessage_lang_ok.
Qed.

Lemma reachable_lang_inv translate `{!Translator translate} s :
  reachable translate s -> lang_inv s.
Proof.
  intros Hr. cut (session_inv s /\ lang_inv s); [tauto|].
  apply (rtc_invariant (step_rel translate) (fun s => session_inv s /\ lang_inv s) initialSession s);
    [split; [apply session_inv_initial|apply lang_inv_initial]| |done].
  intros x y [Hx Hlx] [e He]. split; [by eapply session_inv_step|by eapply lang_inv_step].
Qed.

(** ** Theorem *)

(** C15: in every reachable state every language code the program holds
    is a registry code: the logged-in user's language and label are the
    code and the label of one [SUPPORTED_LANGUAGES] entry ([user_lang_ok]),
    every logged message's original language and every key of its
    translation cache are supported codes ([msg_lang_ok]), and so is every
    target language the translator has been called with. *)
Theorem languages_supported translate `{!Translator translate} s :
  reachable translate s ->
  (forall u, currentUser (app s) = Some u -> user_lang_ok u) /\
  Forall msg_lang_ok (messages (app s)) /\
  (forall r, r ∈ calls s -> req_language r ∈ supported_codes).
Proof.
  intros Hr. destruct (reachable_lang_inv translate s Hr) as [_ Hu Hms Hcalls].
  split_and!; [done|done|].
  intros r Hin. by destruct (proj1 (Forall_forall _ _) Hcalls r Hin).
Qed.
