(* ===== verification/Screens.v ===== *)
(** The markup of [src/components/JoinScreen.tsx] and
    [src/components/ChatRoom.tsx], and [App]'s choice between them
    ([src/App.tsx]), as view values: what each element shows and which
    state it reads.  Class names, icons and the static texts of the title
    and the labels are left out; scrolling ([scrollToBottom] and its
    effect) acts on the DOM only and is not modelled.  The theorems relate
    what a user sees to the state the handlers change: the language button
    a user clicks is the one highlighted and the one the joined user gets,
    a bubble shows the pending dots exactly while its message has a call in
    flight, and the send button is enabled exactly when a submit appends a message. *)

From stdpp Require Import base gmap strings list.
From S2P Require Import Spec2Rocq Types Translator Store Forms Bubble Session.

Open Scope string_scope.

(** ** JoinScreen *)

(** A language button of the grid (JoinScreen.tsx lines 51-65). *)
Record LanguageButton := mkLanguageButton {
  button_key : string;        (** [key={lang.code}] *)
  button_flag : string;
  button_label : string;
  button_selected : bool      (** [selectedLang.code === lang.code] *)
}.

Record JoinScreenView := mkJoinScreenView {
  nickname_value : string;            (** [value={nickname}] *)
  language_buttons : list LanguageButton;
  footer_label : string               (** the closing paragraph *)
}.

Definition languageButton (selectedLang lang : LanguageOption) : LanguageButton :=
  mkLanguageButton (code lang) (flag lang) (label lang) (String.eqb (code selectedLang) (code lang)).

(** The returned markup of [JoinScreen] (lines 25-83). *)
Definition renderJoinScreen (st : JoinScreenState) : JoinScreenView :=
  mkJoinScreenView (nicknameInput st) (languageButton (selectedLang st) <$> SUPPORTED_LANGUAGES)
    ("All messages will be automatically translated to " ++ label (selectedLang st)).

(** Positions of the highlighted buttons. *)
Fixpoint selected_indices (bs : list LanguageButton) : list nat :=
  match bs with
  | [] => []
  | b :: bs' => ((if button_selected b then [0] else []) ++ (S <$> selected_indices bs'))%list
  end.

(** ** ChatRoom *)

Record ChatRoomView := mkChatRoomView {
  header_nickname : string;                 (** line 48 *)
  header_language : string;                 (** line 49 *)
  bubbles : list (string * BubbleView);     (** lines 64-71, with their [key={msg.id}] *)
  input_value : string;                     (** line 81 *)
  input_placeholder : string;               (** line 84 *)
  send_disabled : bool                      (** line 88 *)
}.

(** The returned markup of [ChatRoom] (lines 39-97); [isTranslating] is
    the state of the bubble mounted under a key. *)
Definition renderChatRoom (currentUser : User) (messages : list Message)
    (isTranslating : string -> bool) (st : ChatRoomState) : ChatRoomView :=
  mkChatRoomView (nickname currentUser) ("Native Language: " ++ languageLabel currentUser)
    ((fun msg => (msg_id msg, renderBubble msg currentUser (isTranslating (msg_id msg)))) <$> messages)
    (inputText st) ("Message in " ++ languageLabel currentUser ++ "...")
    (String.eqb (trim (inputText st)) "").

(** ** App *)

Inductive AppView :=
| ShowJoinScreen (v : JoinScreenView)
| ShowChatRoom (v : ChatRoomView).

(** [!currentUser ? <JoinScreen/> : <ChatRoom/>] (App.tsx lines 64-78). *)
Definition renderApp (s : Session) : AppView :=
  match currentUser (app s) with
  | None => ShowJoinScreen (renderJoinScreen (joinForm s))
  | Some u =>
      ShowChatRoom (renderChatRoom u (messages (app s)) (fun i => bool_decide (i ∈ translating s))
                      (chatForm s))
  end.

(** ** Lemmas *)

Lemma supported_codes_NoDup : NoDup supported_codes.
Proof. decide_by_eval. Qed.

Lemma selected_indices_none x l :
  code x ∉ code <$> l -> selected_indices (languageButton x <$> l) = [].
Proof.
  induction l as [|y l IH]; [done|]. rewrite !fmap_cons, elem_of_cons. intros Hx.
  cbn [selected_indices languageButton button_selected].
  case_streq; [naive_solver|]. rewrite IH; naive_solver.
Qed.

Lemma selected_indices_unique l j x :
  NoDup (code <$> l) -> l !! j = Some x -> selected_indices (languageButton x <$> l) = [j].
Proof.
  revert j. induction l as [|y l IH]; intros j Hnd Hj; [done|].
  rewrite fmap_cons in Hnd. apply NoDup_cons in Hnd as [Hy Hnd].
  rewrite fmap_cons. cbn [selected_indices languageButton button_selected].
  destruct j as [|j]; simpl in Hj; simplify_eq.
  - rewrite String.eqb_refl, selected_indices_none by done. done.
  - case_streq as Hc.
    + destruct Hy. rewrite <- Hc. apply list_elem_of_fmap. exists x.
      split; [done|]. by apply (list_elem_of_lookup_2 _ j).
    + by rewrite (IH j).
Qed.

Lemma renderApp_chat s u :
  currentUser (app s) = Some u ->
  renderApp s = ShowChatRoom (renderChatRoom u (messages (app s))
                                (fun i => bool_decide (i ∈ translating s)) (chatForm s)).
Proof. intros Hu. unfold renderApp. by rewrite Hu. Qed.

(** ** Theorems *)

(** C33: the language button a user clicks is read back everywhere: after
    [setSelectedLang] on the [i]-th button, exactly that button is
    highlighted (the registry's codes are distinct), the closing paragraph
    names its label, and the user the form submits carries its code and
    its label. *)
Theorem select_language_roundtrip st i lang :
  SUPPORTED_LANGUAGES !! i = Some lang ->
  selected_indices (language_buttons (renderJoinScreen (selectLanguage i st))) = [i] /\
  footer_label (renderJoinScreen (selectLanguage i st)) =
    "All messages will be automatically translated to " ++ label lang /\
  (forall rnd u, handleSubmit rnd (selectLanguage i st) = Some u ->
     language u = code lang /\ languageLabel u = label lang).
Proof.
  intros Hi. unfold selectLanguage. rewrite Hi. split_and!.
  - apply selected_indices_unique; [apply supported_codes_NoDup|done].
  - done.
  - intros rnd u Hs. unfold handleSubmit in Hs. case_streq; [done|]. by injection Hs as <-.
Qed.

(** C31: in every reachable state of the logged-in app, the bubble of the
    [i]-th message is rendered with [isTranslating] set exactly when the
    message has a call in flight started by the mounted ChatRoom; for a
    message that is not an announcement, its body is the pending indicator
    exactly then, and the displayed text otherwise (spec section 7). *)
Theorem pending_iff_in_flight translate `{!Translator translate} s u i m :
  reachable translate s -> currentUser (app s) = Some u -> messages (app s) !! i = Some m ->
  exists v, renderApp s = ShowChatRoom v /\
    bubbles v !! i = Some (msg_id m, renderBubble m u (bool_decide (msg_id m ∈ current_ids s))) /\
    (isSystem m = false -> exists mine sender badge,
       snd <$> bubbles v !! i =
       Some (ChatBubble mine sender (timestamp m)
               (if bool_decide (msg_id m ∈ current_ids s) then BodyPending
                else BodyText (displayedText m u)) badge)).
Proof.
  intros Hr Hu Hi. pose proof (reachable_session_inv translate s Hr) as Hs.
  eexists. split; [by apply renderApp_chat|].
  assert (bool_decide (msg_id m ∈ translating s) = bool_decide (msg_id m ∈ current_ids s)) as Hb
    by (apply bool_decide_ext, (sinv_flags _ Hs)).
  cbn [bubbles renderChatRoom]. rewrite list_lookup_fmap, Hi. simpl. rewrite Hb. split; [done|].
  intros Hsys. unfold renderBubble. rewrite Hsys. eauto.
Qed.

(** C32: the send button is disabled exactly when a submit does nothing:
    with the button disabled a submit leaves the log and the input as they
    are; with it enabled a submit appends the logged-in user's message
    holding the trimmed input, and empties the input. *)
Theorem send_button_matches_submit translate s u rnd now s' :
  currentUser (app s) = Some u -> step translate s (EvSubmitMessage rnd now) = Some s' ->
  exists v, renderApp s = ShowChatRoom v /\
  if send_disabled v then messages (app s') = messages (app s) /\ chatForm s' = chatForm s
  else messages (app s') = (messages (app s) ++ [newMessage u (trim (input_value v)) rnd now])%list /\
       inputText (chatForm s') = "".
Proof.
  intros Hu Hstep. eexists. split; [by apply renderApp_chat|].
  cbn [send_disabled input_value renderChatRoom].
  apply (step_view_of translate) in Hstep. invc Hstep;
    match goal with H : handleSend _ = _ |- _ => unfold handleSend in H end;
    case_streq as Hb; simplify_eq/=; [|done].
  unfold handleSendMessage. rewrite Hu. by split.
Qed.
