(* ===== verification/Settled.v ===== *)
(** Settled executions: ids are fresh and the user leaves only when no
    translation is in flight.  In them the translator is called at most
    once per (message id, language) for the whole life of the tab, the
    cache of every message only grows, and every write-back is the spec's
    insert-if-absent [updateTranslation].  The invariant [settled_inv]
    extends [session_inv] and [fresh_inv] of [Session.v]; all theorems are
    proved against the [Translator] class. *)

From stdpp Require Import base gmap strings list.
From S2P Require Import Spec2Rocq Types Translator Store Forms Bubble Session.

Open Scope string_scope.

Section Settled.
Context (translate : string -> string -> GenerateOutcome -> string).

(** A step of a settled execution: the event creates no message with an id
    already logged, and is no logout while a translation is in flight. *)
Definition settled_step (s s' : Session) : Prop :=
  exists e, fresh_event s e /\ settled_event s e /\ step translate s e = Some s'.

Definition settled_reachable (s : Session) : Prop := rtc settled_step initialSession s.

End Settled.

(** Every logged message is still at its position, with the same canonical
    fields and at least its cache. *)
Definition log_extends (s s' : Session) : Prop :=
  forall i m, messages (app s) !! i = Some m ->
  exists m', messages (app s') !! i = Some m' /\ extends m m'.

Record settled_inv (s : Session) : Prop := {
  stinv_session : session_inv s;
  stinv_fresh : fresh_inv s;
  (** a call in flight belongs to the mounted ChatRoom and its user, and
      the message it captured is still the logged one, without the entry *)
  stinv_inflight : forall r, r ∈ inflight s ->
    req_generation r = generation s /\ req_message r ∈ messages (app s) /\
    translations (req_message r) !! req_language r = None /\
    exists u, currentUser (app s) = Some u /\ language u = req_language r;
  (** a call made is in flight or its result is cached *)
  stinv_calls : forall r, r ∈ calls s -> r ∈ inflight s \/
    exists m, m ∈ messages (app s) /\ msg_id m = msg_id (req_message r) /\
      is_Some (translations m !! req_language r);
  stinv_keys : NoDup (call_key <$> calls s)
}.

Lemma log_extends_refl s s' : messages (app s') = messages (app s) -> log_extends s s'.
Proof. intros Hms i m Hi. exists m. rewrite Hms. split; [done|apply extends_refl]. Qed.

Lemma log_extends_app s s' m :
  messages (app s') = (messages (app s) ++ [m])%list -> log_extends s s'.
Proof.
  intros Hms i m0 Hi. exists m0. rewrite Hms. split; [|apply extends_refl].
  by apply lookup_app_l_Some.
Qed.

Lemma elem_of_ids_of_generation g l r :
  r ∈ l -> req_generation r = g -> msg_id (req_message r) ∈ ids_of_generation g l.
Proof.
  intros Hr Hg. apply list_elem_of_fmap. exists r. split; [done|].
  by apply list_elem_of_filter.
Qed.

Lemma settled_inv_initial : settled_inv initialSession.
Proof.
  constructor; [apply session_inv_initial|apply fresh_inv_initial| | |apply NoDup_nil_2];
    intros r Hr; by apply elem_of_nil in Hr.
Qed.

Lemma log_extends_prefix s s' :
  messages (app s) `prefix_of` messages (app s') -> log_extends s s'.
Proof.
  intros [k Hk] i m Hi. exists m. rewrite Hk. split; [|apply extends_refl].
  by apply lookup_app_l_Some.
Qed.

Lemma elem_of_prefix_of {A} (l1 l2 : list A) x : l1 `prefix_of` l2 -> x ∈ l1 -> x ∈ l2.
Proof. intros [k ->] Hx. apply elem_of_app. by left. Qed.

(** Steps that keep every logged message, possibly append, and keep the
    calls. *)
Lemma settled_grow s s' :
  settled_inv s -> session_inv s' -> fresh_inv s' ->
  inflight s' = inflight s -> calls s' = calls s ->
  messages (app s) `prefix_of` messages (app s') ->
  (inflight s <> [] -> currentUser (app s') = currentUser (app s) /\ generation s' = generation s) ->
  settled_inv s' /\ log_extends s s'.
Proof.
  intros [] Hs Hf Hinf Hcalls Hpre Hsame. split; [|by apply log_extends_prefix].
  constructor; [done|done| | |by rewrite Hcalls].
  - intros r. rewrite Hinf. intros Hr.
    destruct (Hsame ltac:(by intros Hnil; rewrite Hnil in Hr; apply elem_of_nil in Hr))
      as [Hu Hg].
    destruct (stinv_inflight0 r Hr) as (Hgen & Hm & HL & u & Hu' & Hl).
    rewrite Hu, Hg. split_and!; [done|by eapply elem_of_prefix_of|done|eauto].
  - intros r. rewrite Hcalls, Hinf. intros Hr.
    destruct (stinv_calls0 r Hr) as [?|(m & Hm & Hid & HL)]; [by left|right].
    exists m. split_and!; [by eapply elem_of_prefix_of|done|done].
Qed.

Lemma settled_effect translate `{!Translator translate} s u i m req :
  settled_inv s -> currentUser (app s) = Some u -> messages (app s) !! i = Some m ->
  bubbleEffect (generation s) m u (bool_decide (msg_id m ∈ translating s)) = Some req ->
  settled_inv {| s with translating := {[ msg_id m ]} ∪ translating s;
                        inflight := inflight s ++ [req]; calls := calls s ++ [req] |} /\
  log_extends s {| s with translating := {[ msg_id m ]} ∪ translating s;
                          inflight := inflight s ++ [req]; calls := calls s ++ [req] |}.
Proof.
  intros Hinv Hu Hi Heff. split; [|by apply log_extends_refl].
  pose proof Hinv as [Hs [Hnd Hcan] Hinf Hcalls Hkeys].
  pose proof (session_inv_effect s u i m req Hs Hu Hi Heff) as Hs'.
  apply bubbleEffect_Some in Heff as (-> & Hneed & Hflag%bool_decide_eq_false).
  pose proof (sinv_msgs _ Hs) as Hmsgs.
  destruct (Forall_lookup_1 _ _ _ _ Hmsgs Hi) as [Hc _].
  apply needsTranslation_true in Hneed as (HL & Htr & Hsys).
  apply (truthy_cache _ _ Hc) in Htr.
  assert (m ∈ messages (app s)) as Hm by (by eapply list_elem_of_lookup_2).
  constructor; simpl; [done| | | |].
  - unfold fresh_inv. simpl. split; [done|]. intros r. rewrite elem_of_app, list_elem_of_singleton.
    intros [Hr| ->]; [by apply Hcan|]. apply list_elem_of_fmap. eauto.
  - intros r. rewrite elem_of_app, list_elem_of_singleton. intros [Hr| ->]; [by apply Hinf|].
    simpl. split_and!; eauto.
  - intros r. rewrite !elem_of_app, list_elem_of_singleton. intros [Hr| ->]; [|by left; right].
    destruct (Hcalls r Hr) as [?|?]; [by left; left|by right].
  - rewrite fmap_app. apply NoDup_app. split_and!; [done| |apply NoDup_singleton].
    intros k Hk ->%list_elem_of_singleton.
    apply list_elem_of_fmap in Hk as (r & Hkey & Hr). unfold call_key in Hkey. simpl in Hkey.
    injection Hkey as Hid HLang.
    destruct (Hcalls r Hr) as [Hrin|(m' & Hm' & Hid' & Hsome)].
    + apply Hflag, (sinv_flags _ Hs). rewrite Hid.
      apply elem_of_ids_of_generation; [done|]. by destruct (Hinf r Hrin).
    + assert (m' = m) as -> by (apply (elem_of_ids_unique (messages (app s))); congruence).
      rewrite <- HLang, Htr in Hsome. by destruct Hsome.
Qed.

(** The message a settled call in flight captured is the only logged
    message with its id. *)
Lemma settled_captured s r m :
  settled_inv s -> r ∈ inflight s -> m ∈ messages (app s) ->
  msg_id m = msg_id (req_message r) -> m = req_message r.
Proof.
  intros [_ [Hnd _] Hinf _ _] Hr Hm Hid. destruct (Hinf r Hr) as (_ & Hrm & _).
  by apply (elem_of_ids_unique (messages (app s))).
Qed.

Lemma settled_resolve translate `{!Translator translate} s k req o :
  settled_inv s -> inflight s !! k = Some req ->
  let s' := {| s with app := handleUpdateMessage (updatedMessage translate req o) (app s);
                      inflight := delete k (inflight s);
                      translating := if Nat.eqb (req_generation req) (generation s)
                                     then translating s ∖ {[ msg_id (req_message req) ]}
                                     else translating s |} in
  settled_inv s' /\ log_extends s s'.
Proof.
  intros Hinv Hk s'.
  pose proof Hinv as [Hs Hf Hinf Hcalls Hkeys].
  assert (req ∈ inflight s) as Hreq by (by eapply list_elem_of_lookup_2).
  destruct (Hinf req Hreq) as (Hgen & Hm0 & HL0 & u & Hu & Hlang).
  set (upd := updatedMessage translate req o).
  assert (msg_id upd = msg_id (req_message req)) as Hupd_id by done.
  assert (extends (req_message req) upd) as Hext by (by apply updatedMessage_extends).
  (* the other calls in flight are for other messages *)
  assert (forall r, r ∈ delete k (inflight s) -> msg_id (req_message r) <> msg_id (req_message req))
    as Hother.
  { intros r Hr Heq. pose proof (sinv_nodup _ Hs) as Hnd.
    unfold current_ids in Hnd. rewrite (ids_of_generation_delete _ _ _ _ Hk), decide_True in Hnd by done.
    apply NoDup_cons in Hnd as [Hnot _]. apply Hnot. rewrite <- Heq.
    apply elem_of_ids_of_generation; [done|]. apply Hinf. by eapply elem_of_delete_list. }
  assert (forall m, m ∈ messages (app s) -> msg_id m <> msg_id upd -> m ∈ messages (app s'))
    as Hkept.
  { intros m Hm Hne. unfold s'. cbn [app]. unfold handleUpdateMessage. cbn [messages].
    apply elem_of_replace_where.
    right. split; [done|]. by apply String.eqb_neq. }
  assert (upd ∈ messages (app s')) as Hupd.
  { unfold s'. cbn [app]. unfold handleUpdateMessage. cbn [messages].
    apply elem_of_replace_where. left.
    split; [done|]. exists (req_message req). split; [done|]. apply String.eqb_eq. done. }
  split.
  - constructor.
    + by apply session_inv_resolve.
    + by apply (proj1 (fresh_inv_step translate s (EvResolve k o) s' Hf I ltac:(simpl; by rewrite Hk))).
    + intros r Hr. simpl in Hr. pose proof (elem_of_delete_list _ _ _ _ Hk Hr) as Hr'.
      destruct (Hinf r Hr') as (Hg & Hm & HL & u' & Hu' & Hl').
      split_and!; [done| |done|by exists u'].
      apply Hkept; [done|]. rewrite Hupd_id. by apply Hother.
    + intros r Hr. simpl in *. destruct (Hcalls r Hr) as [Hin|(m & Hm & Hid & Hsome)].
      * rewrite (delete_Permutation _ _ _ Hk) in Hin.
        apply elem_of_cons in Hin as [->|Hin]; [right|by left].
        exists upd. split_and!; [done|done|]. unfold upd, updatedMessage.
        rewrite withTranslation_lookup_eq. by eexists.
      * right. destruct (decide (msg_id m = msg_id upd)) as [Heq|Hne].
        { assert (m = req_message req) as ->
            by (apply (settled_captured s); [done|done|done|by rewrite Heq]).
          exists upd. split_and!; [done|congruence|].
          destruct Hsome as [v Hv]. exists v. by apply (lookup_weaken _ _ _ _ Hv), Hext. }
        { exists m. split_and!; [by apply Hkept|done|done]. }
    + done.
  - intros i m Hi. unfold s'. cbn [app]. unfold handleUpdateMessage. cbn [messages].
    rewrite lookup_replace_where, Hi. cbn [fmap option_fmap option_map]. case_streq as Heq.
    + eexists. split; [done|].
      assert (m = req_message req) as ->; [|done].
      apply (settled_captured s); [done|done|by eapply list_elem_of_lookup_2|by rewrite <- Hupd_id].
    + eexists. split; [done|apply extends_refl].
Qed.

Lemma settled_logged_out s :
  settled_inv s -> currentUser (app s) = None -> inflight s = [].
Proof.
  intros [_ _ Hinf _ _] Hout. destruct (inflight s) as [|r l] eqn:E; [done|].
  destruct (Hinf r (list_elem_of_here r l)) as (_ & _ & _ & u & Hu & _). congruence.
Qed.

Lemma settled_step_inv translate `{!Translator translate} s e s' :
  settled_inv s -> fresh_event s e -> settled_event s e -> step translate s e = Some s' ->
  settled_inv s' /\ log_extends s s'.
Proof.
  intros Hinv Hfresh Hsettled Hstep.
  pose proof (session_inv_step translate s e s' (stinv_session _ Hinv) Hstep) as Hs'.
  pose proof (proj1 (fresh_inv_step translate s e s' (stinv_fresh _ Hinv) Hfresh Hstep)) as Hf'.
  destruct (step_view_of translate s e s' Hstep) as
    [v Hout|i Hout|rnd now u Hout Hs|rnd now|v u Hu|rnd now u cf t Hu Hsend|rnd now u cf Hu Hsend
    |u Hu|now k Hb|i u m req Hu Hi Heff|i u m|k o req Hk]; simpl in Hsettled;
    try by apply (settled_grow s).
  - apply (settled_grow s); [done..| |].
    + simpl. unfold handleJoin. simpl. by apply prefix_app_r.
    + intros Hne. exfalso. by apply Hne, settled_logged_out.
  - apply (settled_grow s); [done..| |].
    + simpl. unfold handleSendMessage. rewrite Hu. simpl. by apply prefix_app_r.
    + intros _. simpl. unfold handleSendMessage. by rewrite Hu.
  - apply (settled_grow s); [done..| |done]. simpl. by apply prefix_app_r.
  - by apply (settled_effect translate s u i m).
  - by apply (settled_resolve translate s k req o).
Qed.

Lemma settled_reachable_inv translate `{!Translator translate} s :
  settled_reachable translate s -> settled_inv s.
Proof.
  apply (rtc_invariant (settled_step translate) settled_inv initialSession s);
    [apply settled_inv_initial|].
  intros x y Hx (e & Hf & Hs & He). by eapply settled_step_inv.
Qed.

(** ** Theorems *)

(** C7: in an execution where ids are fresh and the user leaves only when
    no translation is in flight, the translator is called at most once per
    (message id, language) over the whole life of the tab, across any
    number of logins of any users (spec section 8, dedup property). *)
Theorem translator_called_at_most_once translate `{!Translator translate} s :
  settled_reachable translate s -> NoDup (call_key <$> calls s).
Proof. intros Hr. by destruct (settled_reachable_inv translate s Hr). Qed.

(** C8: in such an execution every step keeps each logged message at its
    position with the same canonical fields and a cache that only grows:
    an entry, once set, is never removed or changed (spec section 3,
    monotonic cache). *)
Theorem cache_only_grows translate `{!Translator translate} s e s' :
  settled_reachable translate s -> fresh_event s e -> settled_event s e ->
  step translate s e = Some s' ->
  forall i m, messages (app s) !! i = Some m ->
  exists m', messages (app s') !! i = Some m' /\
    canonical m' = canonical m /\ translations m ⊆ translations m'.
Proof.
  intros Hr Hf Hs Hstep i m Hi.
  destruct (settled_step_inv translate s e s' (settled_reachable_inv translate s Hr) Hf Hs Hstep)
    as [_ Hext].
  destruct (Hext i m Hi) as (m' & Hi' & Hc & Hsub). eauto.
Qed.

(** C9: in such an execution a translation that completes writes exactly
    what the spec's [updateTranslation(messageId, language, result)] of the
    Conversation Store writes (refinement of spec section 4.1). *)
Theorem resolve_refines_updateTranslation translate `{!Translator translate} s k r o s' :
  settled_reachable translate s -> inflight s !! k = Some r ->
  step translate s (EvResolve k o) = Some s' ->
  messages (app s') =
  ConversationSpec.updateTranslation (msg_id (req_message r)) (req_language r)
    (translate (text (req_message r)) (req_language r) o) (messages (app s)).
Proof.
  intros Hr Hk Hstep. pose proof (settled_reachable_inv translate s Hr) as [_ [Hnd _] Hinf _ _].
  simpl in Hstep. rewrite Hk in Hstep. injection Hstep as <-.
  destruct (Hinf r ltac:(by eapply list_elem_of_lookup_2)) as (_ & Hm & HL & _).
  destruct (proj1 (list_elem_of_lookup _ _) Hm) as [i Hi].
  by apply (replace_where_updateTranslation (messages (app s)) i).
Qed.



(** ** Checking a concrete run *)

Definition fresh_eventb (s : Session) (e : Event) : bool :=
  match created_id e with
  | Some i => bool_decide (i ∉ ids (messages (app s)))
  | None => true
  end.

Definition settled_eventb (s : Session) (e : Event) : bool :=
  match e with
  | EvLogout => bool_decide (inflight s = [])
  | _ => true
  end.

(** [run], refusing an event that would reuse an id or log out while a
    translation is in flight. *)
Fixpoint run_settled translate (s : Session) (es : list Event) : option Session :=
  match es with
  | [] => Some s
  | e :: es' =>
      if fresh_eventb s e && settled_eventb s e then
        match step translate s e with
        | Some s1 => run_settled translate s1 es'
        | None => None
        end
      else None
  end.

Lemma fresh_eventb_sound s e : fresh_eventb s e = true -> fresh_event s e.
Proof. unfold fresh_eventb, fresh_event. destruct (created_id e); [|done]. apply bool_decide_eq_true_1. Qed.

Lemma settled_eventb_sound s e : settled_eventb s e = true -> settled_event s e.
Proof. unfold settled_eventb, settled_event. destruct e; try done. apply bool_decide_eq_true_1. Qed.

Lemma run_settled_rtc translate es s s' :
  run_settled translate s es = Some s' -> rtc (settled_step translate) s s'.
Proof.
  revert s. induction es as [|e es IH]; intros s Hrun; simpl in Hrun; [by simplify_eq|].
  destruct (fresh_eventb s e) eqn:Hf, (settled_eventb s e) eqn:Hs; simpl in Hrun; try done.
  destruct (step translate s e) as [s1|] eqn:He; [|done].
  eapply rtc_l; [|by apply IH]. exists e.
  split_and!; [by apply fresh_eventb_sound|by apply settled_eventb_sound|done].
Qed.

Lemma run_settled_reachable translate es s :
  run_settled translate initialSession es = Some s -> settled_reachable translate s.
Proof. apply run_settled_rtc. Qed.

Lemma settled_rtc_fresh translate s s' :
  rtc (settled_step translate) s s' -> rtc (fresh_step translate) s s'.
Proof.
  induction 1 as [|x y z (e & Hf & _ & He) _ IH]; [done|]. eapply rtc_l; [|done]. by exists e.
Qed.
