(* ===== verification/Clock.v ===== *)
(** [Date.now()] and the order of the log.  Every message the program
    creates takes its [timestamp] from [Date.now()] when it is created
    ([handleJoin], [handleSendMessage], the bot's [setTimeout] callback in
    [src/App.tsx]).  When the clock does not go back and ids are fresh, the
    log is in timestamp order in every state: the spec's append-order
    property (section 8).  The clock is an input of the events; the
    assumption is stated per event, as [fresh_event] is. *)

From stdpp Require Import base gmap strings list.
From Stdlib Require Import Sorted.
From S2P Require Import Spec2Rocq Types Translator Store Forms Bubble Session Settled.

Open Scope string_scope.

(** The time an event reads with [Date.now()]. *)
Definition event_time (e : Event) : option N :=
  match e with
  | EvSubmitJoin _ now | EvSubmitMessage _ now | EvBotTimer now => Some now
  | _ => None
  end.

(** The clock does not go back: an event's time is no earlier than any
    logged timestamp. *)
Definition clock_event (s : Session) (e : Event) : Prop :=
  match event_time e with
  | Some now => Forall (fun m => (timestamp m <= now)%N) (messages (app s))
  | None => True
  end.

Section Timed.
Context (translate : string -> string -> GenerateOutcome -> string).

Definition timed_step (s s' : Session) : Prop :=
  exists e, fresh_event s e /\ clock_event s e /\ step translate s e = Some s'.

Definition timed_reachable (s : Session) : Prop := rtc timed_step initialSession s.
End Timed.

(** ** Lemmas *)

Lemma timestamps_of_canonical (ms ms' : list Message) :
  canonical <$> ms = canonical <$> ms' -> timestamp <$> ms = timestamp <$> ms'.
Proof.
  intros H. assert (forall l : list Message, timestamp <$> l = (fun c => c.2) <$> (canonical <$> l)) as Hts.
  { intros l. rewrite <- list_fmap_compose. done. }
  by rewrite !Hts, H.
Qed.

Lemma Sorted_snoc (l : list N) x :
  Sorted N.le l -> Forall (fun y => (y <= x)%N) l -> Sorted N.le (l ++ [x])%list.
Proof.
  induction 1 as [|a l Hl IH Hhd]; intros Hx; [by repeat constructor|].
  apply Forall_cons in Hx as [Hax Hx]. simpl. constructor; [by apply IH|].
  destruct Hhd as [|b l' Hab]; simpl; by constructor.
Qed.

(** A message created at [now] after every logged one keeps the log in
    order. *)
Lemma timed_append (s s' : Session) m now :
  Sorted N.le (timestamp <$> messages (app s)) ->
  Forall (fun m => (timestamp m <= now)%N) (messages (app s)) ->
  messages (app s') = (messages (app s) ++ [m])%list -> timestamp m = now ->
  Sorted N.le (timestamp <$> messages (app s')).
Proof.
  intros Hs Hle Hms Hm. rewrite Hms, fmap_app. simpl. rewrite Hm.
  apply Sorted_snoc; [done|]. by apply Forall_fmap.
Qed.

Lemma timed_inv_step translate s e s' :
  fresh_inv s -> Sorted N.le (timestamp <$> messages (app s)) ->
  clock_event s e -> step translate s e = Some s' ->
  Sorted N.le (timestamp <$> messages (app s')).
Proof.
  intros Hf Hs Hclock Hstep. unfold clock_event in Hclock.
  destruct (step_view_of translate s e s' Hstep) as
    [v Hout|i Hout|rnd now u Hout Hsub|rnd now|v u Hu|rnd now u cf t Hu Hsend|rnd now u cf Hu Hsend
    |u Hu|now k Hb|i u m req Hu Hi Heff|i u m|k o req Hk]; simpl in Hclock; try done.
  - by apply (timed_append s _ (welcomeMsg u now) now).
  - apply (timed_append s _ (newMessage u t rnd now) now); [done|done| |done].
    simpl. unfold handleSendMessage. by rewrite Hu.
  - by apply (timed_append s _ (botMsg now) now).
  - cbn [app]. by rewrite (timestamps_of_canonical _ _ (fresh_resolve_canonical translate s k req o Hf Hk)).
Qed.

(** ** Theorem *)

(** C14: spec section 8, append-order property: when [Date.now()] does not
    go back and ids are fresh, the log is in non-decreasing timestamp order
    in every state, whatever translations are pending or settle in
    between. *)
Theorem log_in_time_order translate s :
  timed_reachable translate s -> Sorted N.le (timestamp <$> messages (app s)).
Proof.
  intros Hr. cut (fresh_inv s /\ Sorted N.le (timestamp <$> messages (app s))); [tauto|].
  apply (rtc_invariant (timed_step translate)
           (fun s => fresh_inv s /\ Sorted N.le (timestamp <$> messages (app s))) initialSession s);
    [split; [apply fresh_inv_initial|constructor]| |done].
  intros x y [Hx Hsx] (e & Hfresh & Hclock & He). split.
  - exact (proj1 (fresh_inv_step translate x e y Hx Hfresh He)).
  - by apply (timed_inv_step translate x e y).
Qed.

(** ** Checking a concrete run *)

Definition clock_eventb (s : Session) (e : Event) : bool :=
  match event_time e with
  | Some now => forallb (fun m => N.leb (timestamp m) now) (messages (app s))
  | None => true
  end.

(** [run], refusing an event that would reuse an id or read an earlier
    time. *)
Fixpoint run_timed translate (s : Session) (es : list Event) : option Session :=
  match es with
  | [] => Some s
  | e :: es' =>
      if fresh_eventb s e && clock_eventb s e then
        match step translate s e with
        | Some s1 => run_timed translate s1 es'
        | None => None
        end
      else None
  end.

Lemma clock_eventb_sound s e : clock_eventb s e = true -> clock_event s e.
Proof.
  unfold clock_eventb, clock_event. destruct (event_time e) as [now|]; [|done].
  intros H. apply Forall_forall. intros m Hm.
  apply forallb_forall with (x := m) in H; [|by apply list_elem_of_In]. by apply N.leb_le.
Qed.

Lemma run_timed_rtc translate es s s' :
  run_timed translate s es = Some s' -> rtc (timed_step translate) s s'.
Proof.
  revert s. induction es as [|e es IH]; intros s Hrun; simpl in Hrun; [by simplify_eq|].
  destruct (fresh_eventb s e) eqn:Hf, (clock_eventb s e) eqn:Hc; simpl in Hrun; try done.
  destruct (step translate s e) as [s1|] eqn:He; [|done].
  eapply rtc_l; [|by apply IH]. exists e.
  split_and!; [by apply fresh_eventb_sound|by apply clock_eventb_sound|done].
Qed.

Lemma run_timed_reachable translate es s :
  run_timed translate initialSession es = Some s -> timed_reachable translate s.
Proof. apply run_timed_rtc. Qed.
