(* ===== verification/Quiescence.v ===== *)
(** How much translation work a settled execution can do.  The translator
    is called at most once per (message, supported language), so the
    number of calls is bounded by the size of the log times the size of
    the registry; and the events that need no user (bubble effects,
    promises settling, the bot's timer) cannot go on forever: without user
    input the tab reaches a state where none of them changes anything.
    The proofs combine [settled_inv] ([Settled.v]) with the registry
    invariant [lang_inv] ([Languages.v]). *)

From stdpp Require Import base gmap strings list relations.
From S2P Require Import Spec2Rocq Types Translator Store Forms Bubble Session Languages Settled.

Open Scope string_scope.

Section Env.
Context (translate : string -> string -> GenerateOutcome -> string).

(** A step no user causes: a bubble's effect that starts a call (an
    effect whose guard is false changes nothing), a call in flight that
    settles, or a pending bot timer that fires with a fresh id. *)
Inductive env_step (s : Session) : Session -> Prop :=
| EnvEffect i s' : step translate s (EvEffect i) = Some s' -> s' <> s -> env_step s s'
| EnvResolve k o s' : step translate s (EvResolve k o) = Some s' -> env_step s s'
| EnvTimer now s' : fresh_event s (EvBotTimer now) -> step translate s (EvBotTimer now) = Some s' ->
    env_step s s'.
End Env.

(** The bound of the number of calls. *)
Definition call_budget (s : Session) : nat :=
  length (messages (app s)) * length SUPPORTED_LANGUAGES.

(** Calls still possible, twice, plus calls in flight, plus the work a
    pending timer brings (its message and the calls it allows). *)
Definition work_left (s : Session) : nat :=
  2 * (call_budget s - length (calls s)) + length (inflight s) +
  (2 * length SUPPORTED_LANGUAGES + 1) * botTimers (app s).

(** ** Lemmas *)

Lemma settled_reachable_reachable translate s :
  settled_reachable translate s -> reachable translate s.
Proof.
  apply rtc_subrel. intros x y (e & _ & _ & He). by exists e.
Qed.

Lemma settled_reachable_lang_inv translate `{!Translator translate} s :
  settled_reachable translate s -> lang_inv s.
Proof. intros Hr. by apply (reachable_lang_inv translate), settled_reachable_reachable. Qed.

(** A key of a settled call is a logged id and a registry code. *)
Lemma call_keys_incl s :
  settled_inv s -> lang_inv s ->
  incl (call_key <$> calls s) (list_prod (ids (messages (app s))) supported_codes).
Proof.
  intros [_ _ Hinf Hcalls _] [_ _ _ Hlang] k Hk.
  apply list_elem_of_In, list_elem_of_fmap in Hk as (r & -> & Hr).
  apply in_prod; apply list_elem_of_In.
  - destruct (Hcalls r Hr) as [Hin|(m & Hm & Hid & _)].
    + destruct (Hinf r Hin) as (_ & Hm & _). apply list_elem_of_fmap. eauto.
    + apply list_elem_of_fmap. eauto.
  - by destruct (proj1 (Forall_forall _ _) Hlang r Hr).
Qed.

Lemma calls_within_budget s :
  settled_inv s -> lang_inv s -> length (calls s) <= call_budget s.
Proof.
  intros Hs Hl. unfold call_budget.
  rewrite <- (length_fmap call_key (calls s)).
  replace (length (messages (app s)) * length SUPPORTED_LANGUAGES)
    with (length (list_prod (ids (messages (app s))) supported_codes))
    by (rewrite length_prod; unfold ids, supported_codes; by rewrite !length_fmap).
  apply NoDup_incl_length; [apply NoDup_ListNoDup, (stinv_keys _ Hs)|by apply call_keys_incl].
Qed.

Lemma settled_reachable_budget translate `{!Translator translate} s :
  settled_reachable translate s -> length (calls s) <= call_budget s.
Proof.
  intros Hr. apply calls_within_budget;
    [by apply (settled_reachable_inv translate)|by apply (settled_reachable_lang_inv translate)].
Qed.

Lemma env_step_settled translate s s' : env_step translate s s' -> settled_step translate s s'.
Proof.
  destruct 1 as [i s' He _|k o s' He|now s' Hf He]; [exists (EvEffect i)|exists (EvResolve k o)|exists (EvBotTimer now)];
    by split_and!.
Qed.

Lemma env_step_work translate s s' :
  env_step translate s s' -> length (calls s') <= call_budget s' ->
  work_left s' < work_left s.
Proof.
  intros Hstep Hb. unfold work_left, call_budget in *.
  destruct Hstep as [i s' He Hne|k o s' He|now s' _ He];
    apply (step_view_of translate) in He; invc He;
    cbn [app messages calls inflight botTimers] in *.
  - rewrite !length_app in *. simpl in *. lia.
  - by destruct Hne.
  - match goal with Hk : inflight s !! _ = Some _ |- _ => apply lookup_lt_Some in Hk end.
    cbn [handleUpdateMessage messages botTimers].
    rewrite length_delete, length_replace_where by (apply lookup_lt_is_Some; lia). lia.
  - rewrite length_app in *. simpl in *. lia.
Qed.

(** ** Theorems *)

(** C13: in a settled execution every call to the translator is for a
    logged message id and a registry language, so the translator has been
    called at most [call_budget] = (number of logged messages) x (number of
    supported languages) times, whatever the number of logins and
    renders. *)
Theorem calls_bounded translate `{!Translator translate} s :
  settled_reachable translate s ->
  incl (call_key <$> calls s) (list_prod (ids (messages (app s))) supported_codes) /\
  length (calls s) <= call_budget s.
Proof.
  intros Hr. split; [|by apply (settled_reachable_budget translate)].
  apply call_keys_incl;
    [by apply (settled_reachable_inv translate)|by apply (settled_reachable_lang_inv translate)].
Qed.

(** C12: from any state of a settled execution, the steps that need no
    user (bubble effects that start a call, calls settling, the bot's
    timer firing) terminate: there is no infinite sequence of them, so
    without user input the tab reaches a state where every effect is idle,
    no promise is pending and no timer is left. *)
Theorem environment_quiesces translate `{!Translator translate} s :
  settled_reachable translate s -> sn (env_step translate) s.
Proof.
  intros Hr. remember (work_left s) as n eqn:Hn. revert s Hr Hn.
  induction (lt_wf n) as [n _ IH]. intros s Hr ->.
  constructor. intros s' Hstep.
  assert (settled_reachable translate s') as Hr'
    by (eapply rtc_r; [exact Hr|by apply env_step_settled]).
  eapply (IH (work_left s')); [|done|done].
  apply (env_step_work translate s s'); [done|by apply (settled_reachable_budget translate)].
Qed.

(** Without user input, one call settling or one effect starting a call
    is always possible while work is left. *)
Lemma env_resolve_step translate s r l :
  inflight s = r :: l ->
  exists s', env_step translate s s' /\ currentUser (app s') = currentUser (app s).
Proof.
  intros Hinf. eexists. split; [apply (EnvResolve _ _ 0 GenRejected); simpl; rewrite Hinf; reflexivity|done].
Qed.

Lemma env_effect_step translate s u i m :
  session_inv s -> inflight s = [] -> currentUser (app s) = Some u ->
  messages (app s) !! i = Some m -> needsTranslation m u = true ->
  exists s', env_step translate s s' /\ currentUser (app s') = currentUser (app s).
Proof.
  intros Hs Hinf Hu Hi Hneed.
  assert (msg_id m ∉ translating s) as Hflag.
  { rewrite (sinv_flags _ Hs). unfold current_ids. rewrite Hinf. apply not_elem_of_nil. }
  eexists. split; [apply (EnvEffect _ _ i)|].
  - simpl. rewrite Hu, Hi. unfold bubbleEffect. rewrite Hneed, bool_decide_false by done.
    reflexivity.
  - intros Heq. apply (f_equal (fun s => length (calls s))) in Heq.
    simpl in Heq. rewrite length_app in Heq. simpl in Heq. lia.
  - done.
Qed.

Lemma env_reach_translated translate `{!Translator translate} s u :
  settled_reachable translate s -> currentUser (app s) = Some u ->
  exists s', rtc (env_step translate) s s' /\ currentUser (app s') = Some u /\
    inflight s' = [] /\ Forall (fun m => needsTranslation m u = false) (messages (app s')).
Proof.
  intros Hr Hu. remember (work_left s) as n eqn:Hn. revert s Hr Hu Hn.
  induction (lt_wf n) as [n _ IH]. intros s Hr Hu ->.
  pose proof (settled_reachable_inv translate s Hr) as Hinv.
  assert (forall s1, env_step translate s s1 -> currentUser (app s1) = currentUser (app s) ->
            exists s', rtc (env_step translate) s s' /\ currentUser (app s') = Some u /\
              inflight s' = [] /\ Forall (fun m => needsTranslation m u = false) (messages (app s')))
    as Hnext.
  { intros s1 Hstep Hu1.
    assert (settled_reachable translate s1) as Hr1
      by (eapply rtc_r; [exact Hr|by apply env_step_settled]).
    destruct (IH (work_left s1)) with (s := s1) as (s' & Hs' & Hrest); [|done|congruence|done|].
    - apply (env_step_work translate s s1); [done|by apply (settled_reachable_budget translate)].
    - exists s'. split; [by eapply rtc_l|done]. }
  destruct (inflight s) as [|r l] eqn:Hinf.
  - destruct (decide (Exists (fun m => needsTranslation m u = true) (messages (app s))))
      as [Hex|Hnone].
    + apply Exists_exists in Hex as (m & Hm & Hneed).
      apply list_elem_of_lookup in Hm as [i Hi].
      destruct (env_effect_step translate s u i m (stinv_session _ Hinv) Hinf Hu Hi Hneed)
        as (s1 & Hstep & Hu1).
      by apply (Hnext s1).
    + exists s. split_and!; [done|done|done|].
      apply Forall_forall. intros m Hm. apply not_true_is_false. intros Hneed.
      apply Hnone, Exists_exists. eauto.
  - destruct (env_resolve_step translate s r l Hinf) as (s1 & Hstep & Hu1).
    by apply (Hnext s1).
Qed.

Lemma env_step_user translate s s' :
  env_step translate s s' -> currentUser (app s') = currentUser (app s).
Proof.
  destruct 1 as [i s' He _|k o s' He|now s' _ He];
    apply (step_view_of translate) in He; by invc He.
Qed.

Lemma env_rtc_settled translate s s' :
  settled_reachable translate s -> rtc (env_step translate) s s' ->
  settled_reachable translate s' /\ currentUser (app s') = currentUser (app s).
Proof.
  intros Hr Hrtc. induction Hrtc as [|x y z Hxy _ IH]; [done|].
  destruct IH as [Hz Hu].
  - eapply rtc_r; [exact Hr|by apply env_step_settled].
  - split; [done|]. rewrite Hu. by apply (env_step_user translate).
Qed.

(** A state where the environment can do nothing more has no call in
    flight and nothing left to translate for the logged-in user. *)
Lemma env_nf_translated translate `{!Translator translate} s u :
  settled_reachable translate s -> currentUser (app s) = Some u -> nf (env_step translate) s ->
  inflight s = [] /\ Forall (fun m => needsTranslation m u = false) (messages (app s)).
Proof.
  intros Hr Hu Hnf. pose proof (settled_reachable_inv translate s Hr) as Hinv.
  destruct (inflight s) as [|r l] eqn:Hinf.
  - split; [done|]. apply Forall_forall. intros m Hm. apply not_true_is_false. intros Hneed.
    apply list_elem_of_lookup in Hm as [i Hi].
    destruct (env_effect_step translate s u i m (stinv_session _ Hinv) Hinf Hu Hi Hneed)
      as (s1 & Hstep & _).
    apply Hnf. by exists s1.
  - destruct (env_resolve_step translate s r l Hinf) as (s1 & Hstep & _).
    destruct Hnf. by exists s1.
Qed.

(** C11: liveness of the orchestration.  From any state of a settled
    execution with a user logged in, the steps that need no user (effects
    starting calls, calls settling) can reach a state where no call is in
    flight and no logged message needs a translation for that user; and
    every run of such steps that stops (by C12 every run stops), whatever
    the provider answered, stops in such a state: every message is then
    shown in the viewer's language, or is an announcement, or is in that
    language already. *)
Theorem all_messages_translated translate `{!Translator translate} s u :
  settled_reachable translate s -> currentUser (app s) = Some u ->
  (exists s', rtc (env_step translate) s s' /\ currentUser (app s') = Some u /\
     inflight s' = [] /\ Forall (fun m => needsTranslation m u = false) (messages (app s'))) /\
  (forall s', rtc (env_step translate) s s' -> nf (env_step translate) s' ->
     inflight s' = [] /\ Forall (fun m => needsTranslation m u = false) (messages (app s'))).
Proof.
  intros Hr Hu. split; [by apply env_reach_translated|].
  intros s' Hrtc Hnf. destruct (env_rtc_settled translate s s' Hr Hrtc) as [Hr' Hu'].
  apply (env_nf_translated translate s' u); [done|congruence|done].
Qed.
