(* ===== verification/PairMachine.v ===== *)
(** The spec's state machine per (message, language) pair (section 4.2):
    [UNNEEDED -> NEEDED -> IN_FLIGHT -> CACHED], [UNNEEDED] terminal for
    same-language pairs, no transition back from [CACHED].  [pair_state]
    is the abstraction function: it reads the pair's state off a session
    (the logged message with that id, its cache, the calls in flight), and
    [None] stands for a message that does not exist yet.  The theorem of
    this file is a simulation: in a settled execution every step of the
    program moves every pair along an arrow of the spec's machine or leaves
    it where it is, and a call to the translator happens exactly on an
    arrow [NEEDED -> IN_FLIGHT]. *)

From stdpp Require Import base gmap strings list.
From S2P Require Import Spec2Rocq Types Translator Store Forms Bubble Session Settled.

Open Scope string_scope.

Inductive PairState := Unneeded | Needed | InFlight | Cached.

#[export] Instance PairState_eq_dec : EqDecision PairState.
Proof. solve_decision. Defined.

(** The arrows of the spec's machine, with the creation of the message
    (a pair starts [UNNEEDED] or [NEEDED]) and stuttering. *)
Inductive pair_trans : option PairState -> option PairState -> Prop :=
| PTStay p : pair_trans p p
| PTCreate p : p = Unneeded \/ p = Needed -> pair_trans None (Some p)
| PTStart : pair_trans (Some Needed) (Some InFlight)
| PTFill : pair_trans (Some InFlight) (Some Cached).

(** The first logged message with id [mid]. *)
Definition find_msg (ms : list Message) (mid : string) : option Message :=
  List.find (fun m => String.eqb (msg_id m) mid) ms.

(** The state of the pair ([msg_id m], [L]) when [busy] tells whether a
    call for it is in flight. *)
Definition pair_of (m : Message) (L : string) (busy : bool) : PairState :=
  if isSystem m || String.eqb (originalLanguage m) L then Unneeded
  else match translations m !! L with
       | Some _ => Cached
       | None => if busy then InFlight else Needed
       end.

Definition pair_state (s : Session) (mid L : string) : option PairState :=
  (fun m => pair_of m L (bool_decide ((mid, L) ∈ call_key <$> inflight s)))
    <$> find_msg (messages (app s)) mid.

(** A message as it is created: an announcement, or a message whose cache
    holds at most its own language. *)
Definition born_uncached (m : Message) : Prop :=
  isSystem m = true \/ forall L, L <> originalLanguage m -> translations m !! L = None.

(** ** Finding a message by id *)

Lemma find_msg_cons y ms mid :
  find_msg (y :: ms) mid = if String.eqb (msg_id y) mid then Some y else find_msg ms mid.
Proof. done. Qed.

Lemma find_msg_Some ms mid m : find_msg ms mid = Some m -> m ∈ ms /\ msg_id m = mid.
Proof.
  induction ms as [|y ms IH]; [done|]. rewrite find_msg_cons, elem_of_cons.
  case_streq; [intros [= <-]; auto|naive_solver].
Qed.

Lemma find_msg_None ms mid : find_msg ms mid = None <-> mid ∉ ids ms.
Proof.
  induction ms as [|y ms IH]; [split; [intros _ Hin; by apply elem_of_nil in Hin|done]|].
  rewrite find_msg_cons. unfold ids in *. rewrite fmap_cons, elem_of_cons.
  case_streq; naive_solver.
Qed.

Lemma find_msg_elem ms m : NoDup (ids ms) -> m ∈ ms -> find_msg ms (msg_id m) = Some m.
Proof.
  intros Hnd Hm. destruct (find_msg ms (msg_id m)) as [m'|] eqn:Hf.
  - apply find_msg_Some in Hf as [Hm' Hid]. f_equal. by apply (elem_of_ids_unique ms).
  - apply find_msg_None in Hf. destruct Hf. apply list_elem_of_fmap. eauto.
Qed.

Lemma find_msg_snoc ms m mid :
  find_msg (ms ++ [m])%list mid =
  match find_msg ms mid with
  | Some x => Some x
  | None => if String.eqb (msg_id m) mid then Some m else None
  end.
Proof.
  induction ms as [|y ms IH]; [done|].
  rewrite <- app_comm_cons, !find_msg_cons, IH. by destruct (String.eqb (msg_id y) mid).
Qed.

Lemma find_msg_replace ms x mid :
  find_msg (replace_where (fun y => String.eqb (msg_id y) (msg_id x)) x ms) mid =
  if String.eqb (msg_id x) mid then (fun _ => x) <$> find_msg ms mid else find_msg ms mid.
Proof.
  induction ms as [|y ms IH]; [by destruct (String.eqb _ _)|].
  unfold replace_where in *. cbn [map]. rewrite !find_msg_cons, IH.
  repeat case_streq; simplify_eq/=; try done; congruence.
Qed.

(** ** Keys of the calls in flight *)

Lemma keys_snoc (l : list TranslationRequest) r x :
  x ∈ call_key <$> (l ++ [r])%list <-> x ∈ call_key <$> l \/ x = call_key r.
Proof. rewrite fmap_app, elem_of_app. simpl. by rewrite list_elem_of_singleton. Qed.

Lemma keys_delete (l : list TranslationRequest) (k : nat) r x :
  l !! k = Some r -> x <> call_key r ->
  x ∈ call_key <$> delete k l <-> x ∈ call_key <$> l.
Proof.
  intros Hk Hne. rewrite (delete_Permutation l k r Hk) at 2.
  rewrite fmap_cons, elem_of_cons. naive_solver.
Qed.

(** ** The abstraction on each kind of step *)

Lemma pair_state_same s s' :
  messages (app s') = messages (app s) -> inflight s' = inflight s ->
  forall mid L, pair_trans (pair_state s mid L) (pair_state s' mid L).
Proof. intros Hms Hinf mid L. unfold pair_state. rewrite Hms, Hinf. constructor. Qed.

Lemma pair_of_busy_ext m L b b' : (b = true <-> b' = true) -> pair_of m L b = pair_of m L b'.
Proof. intros Hb. unfold pair_of. destruct b, b'; naive_solver. Qed.

Lemma welcomeMsg_born u now : born_uncached (welcomeMsg u now).
Proof. by left. Qed.

Lemma newMessage_born u t rnd now : born_uncached (newMessage u t rnd now).
Proof. right. intros L HL. by apply lookup_singleton_ne. Qed.

Lemma botMsg_born now : born_uncached (botMsg now).
Proof. right. intros L _. apply lookup_empty. Qed.

(** Appending a message with a fresh id creates its pairs and leaves the
    others. *)
Lemma pair_append s s' m :
  settled_inv s -> msg_id m ∉ ids (messages (app s)) -> born_uncached m ->
  messages (app s') = (messages (app s) ++ [m])%list -> inflight s' = inflight s ->
  forall mid L, pair_trans (pair_state s mid L) (pair_state s' mid L).
Proof.
  intros [_ _ Hinfl _ _] Hfresh Hborn Hms Hinf mid L. unfold pair_state.
  rewrite Hms, Hinf, find_msg_snoc.
  destruct (find_msg (messages (app s)) mid) as [x|] eqn:Hf; [constructor|].
  case_streq as Hid; [|constructor]. subst mid. simpl. constructor.
  rewrite bool_decide_false.
  2:{ intros (r & Hkey & Hr)%list_elem_of_fmap. injection Hkey as Hid _.
      destruct (Hinfl r Hr) as (_ & Hm & _). apply Hfresh. rewrite Hid.
      apply list_elem_of_fmap. eauto. }
  unfold pair_of. destruct (isSystem m) eqn:Hsys; [by left|].
  case_streq as Ho; [by left|]. destruct Hborn as [Hborn|Hborn]; [congruence|].
  rewrite Hborn by done. by right.
Qed.

Lemma pair_effect s u i m req :
  settled_inv s -> currentUser (app s) = Some u -> messages (app s) !! i = Some m ->
  bubbleEffect (generation s) m u (bool_decide (msg_id m ∈ translating s)) = Some req ->
  let s' := {| s with translating := {[ msg_id m ]} ∪ translating s;
                      inflight := inflight s ++ [req]; calls := calls s ++ [req] |} in
  pair_state s (msg_id (req_message req)) (req_language req) = Some Needed /\
  pair_state s' (msg_id (req_message req)) (req_language req) = Some InFlight /\
  forall mid L, pair_trans (pair_state s mid L) (pair_state s' mid L).
Proof.
  intros [Hs [Hnd _] Hinfl _ _] Hu Hi Heff s'.
  apply bubbleEffect_Some in Heff as (-> & Hneed & Hflag%bool_decide_eq_false).
  pose proof (Forall_lookup_1 _ _ _ _ (sinv_msgs _ Hs) Hi) as [Hc _].
  apply needsTranslation_true in Hneed as (HL & Htr & Hsys).
  apply (truthy_cache _ _ Hc) in Htr.
  assert (find_msg (messages (app s)) (msg_id m) = Some m) as Hf
    by (apply find_msg_elem; [done|by eapply list_elem_of_lookup_2]).
  assert (pair_of m (language u) false = Needed) as Hneeded.
  { unfold pair_of, isSystem. do 2 (case_streq; [done|]). by rewrite Htr. }
  assert (pair_of m (language u) true = InFlight) as Hinflight.
  { unfold pair_of, isSystem. do 2 (case_streq; [done|]). by rewrite Htr. }
  assert ((msg_id m, language u) ∉ call_key <$> inflight s) as Hidle.
  { intros (r & Hkey & Hr)%list_elem_of_fmap. injection Hkey as Hid _.
    apply Hflag, (sinv_flags _ Hs). rewrite Hid.
    apply elem_of_ids_of_generation; [done|]. by destruct (Hinfl r Hr). }
  unfold pair_state, s'. cbn [inflight app req_message req_language]. rewrite !Hf. simpl.
  rewrite bool_decide_false, bool_decide_true by (rewrite ?keys_snoc; unfold call_key; naive_solver).
  split_and!; [by rewrite Hneeded|by rewrite Hinflight|].
  intros mid L. destruct (decide ((mid, L) = (msg_id m, language u))) as [[= -> ->]|Hne].
  - rewrite Hf. simpl. rewrite bool_decide_false, bool_decide_true
      by (rewrite ?keys_snoc; unfold call_key; naive_solver).
    rewrite Hneeded, Hinflight. constructor.
  - destruct (find_msg (messages (app s)) mid); simpl; [|constructor].
    erewrite pair_of_busy_ext; [constructor|].
    rewrite !bool_decide_eq_true, keys_snoc. unfold call_key. naive_solver.
Qed.

Lemma pair_of_withTranslation m L L' t b :
  L <> L' -> pair_of (withTranslation m L' t) L b = pair_of m L b.
Proof. intros HL. unfold pair_of, isSystem. simpl. by rewrite lookup_insert_ne. Qed.

(** A settled call that completes fills its own pair and leaves every
    other pair, of its message or of another, where it is. *)
Lemma pair_resolve translate s k req o :
  settled_inv s -> inflight s !! k = Some req ->
  let s' := {| s with app := handleUpdateMessage (updatedMessage translate req o) (app s);
                      inflight := delete k (inflight s);
                      translating := if Nat.eqb (req_generation req) (generation s)
                                     then translating s ∖ {[ msg_id (req_message req) ]}
                                     else translating s |} in
  forall mid L, pair_trans (pair_state s mid L) (pair_state s' mid L).
Proof.
  intros [Hs [Hnd _] Hinfl _ _] Hk s' mid L.
  assert (req ∈ inflight s) as Hreq by (by eapply list_elem_of_lookup_2).
  destruct (Hinfl req Hreq) as (_ & Hm0 & HL0 & _).
  destruct (proj1 (Forall_forall _ _) (sinv_calls _ Hs) req (sinv_inflight _ Hs req Hreq))
    as (Hsys & Hlang & _).
  unfold pair_state, s'. cbn [app inflight]. unfold handleUpdateMessage. cbn [messages].
  rewrite find_msg_replace. unfold updatedMessage, withTranslation. cbn [msg_id].
  case_streq as Heq.
  - subst mid. rewrite (find_msg_elem _ _ Hnd Hm0). simpl. f_equal.
    destruct (decide (L = req_language req)) as [->|HL].
    + rewrite (bool_decide_true (_ ∈ call_key <$> inflight s))
        by (apply list_elem_of_fmap; by exists req).
      unfold pair_of, isSystem. cbn [senderId originalLanguage translations].
      do 2 (case_streq; [done|]). rewrite HL0, lookup_insert_eq. constructor.
    + fold (withTranslation (req_message req) (req_language req)
              (translate (text (req_message req)) (req_language req) o)).
      rewrite pair_of_withTranslation by done.
      erewrite pair_of_busy_ext; [constructor|].
      rewrite !bool_decide_eq_true. symmetry. apply (keys_delete _ _ req); [done|].
      unfold call_key. congruence.
  - destruct (find_msg (messages (app s)) mid); simpl; [|constructor].
    erewrite pair_of_busy_ext; [constructor|].
    rewrite !bool_decide_eq_true. symmetry. apply (keys_delete _ _ req); [done|].
    unfold call_key. congruence.
Qed.

(** ** Theorem *)

(** C10: refinement of the spec's per-pair state machine (section 4.2).
    In an execution where ids are fresh and the user leaves only when no
    translation is in flight, every step of the program moves the state of
    every (message id, language) pair along an arrow of
    [UNNEEDED -> NEEDED -> IN_FLIGHT -> CACHED] (a pair is created
    [UNNEEDED] or [NEEDED] with its message) or leaves it unchanged; in
    particular [UNNEEDED] and [CACHED] are never left.  A step either makes
    no call to the translator, or makes one call whose pair goes from
    [NEEDED] to [IN_FLIGHT] in that step. *)
Theorem pair_machine_simulation translate `{!Translator translate} s e s' :
  settled_reachable translate s -> fresh_event s e -> settled_event s e ->
  step translate s e = Some s' ->
  (forall mid L, pair_trans (pair_state s mid L) (pair_state s' mid L)) /\
  (calls s' = calls s \/
   exists r, calls s' = (calls s ++ [r])%list /\
     pair_state s (msg_id (req_message r)) (req_language r) = Some Needed /\
     pair_state s' (msg_id (req_message r)) (req_language r) = Some InFlight).
Proof.
  intros Hr Hfresh _ Hstep.
  pose proof (settled_reachable_inv translate s Hr) as Hinv.
  unfold fresh_event in Hfresh.
  destruct (step_view_of translate s e s' Hstep) as
    [v Hout|i Hout|rnd now u Hout Hsub|rnd now|v u Hu|rnd now u cf t Hu Hsend|rnd now u cf Hu Hsend
    |u Hu|now k Hb|i u m req Hu Hi Heff|i u m|k o req Hk]; simpl in Hfresh;
    try (split; [by apply pair_state_same|by left]).
  - split; [|by left]. by apply (pair_append s _ (welcomeMsg u now)); [..|apply welcomeMsg_born| |].
  - split; [|by left]. apply (pair_append s _ (newMessage u t rnd now)); [done|done|apply newMessage_born| |done].
    simpl. unfold handleSendMessage. by rewrite Hu.
  - split; [|by left]. by apply (pair_append s _ (botMsg now)); [..|apply botMsg_born| |].
  - destruct (pair_effect s u i m req Hinv Hu Hi Heff) as (H1 & H2 & H3).
    split; [done|right; eauto].
  - split; [by apply pair_resolve|by left].
Qed.
