(* ===== verification/Scenarios.v ===== *)
(** Concrete executions of the program, [step translateText] from the
    initial state, checked by evaluation: the two scenarios of the spec
    (section 8) and the traces that show the behaviours outside the
    settled executions of [Settled.v]: a stale write-back that erases a
    cached translation and repeats a call, a repeated call after a
    rejoin, and a random-id collision that overwrites another message's
    text.  The witnesses of the general theorems are here too. *)

From stdpp Require Import base gmap strings list relations.
From Stdlib Require Import Sorted.
From S2P Require Import Spec2Rocq Types Translator Store Forms Bubble Session Languages Screens Settled Clock Quiescence PairMachine.

Open Scope string_scope.

(** The cached entry for language [L] of the [i]-th message, if any. *)
Definition cached_at (o : option Session) (i : nat) (L : string) : option string :=
  s ← o; m ← messages (app s) !! i; translations m !! L.

(** The text of the [i]-th message a viewer sees. *)
Definition shown_to (o : option Session) (i : nat) (u : User) : option string :=
  s ← o; m ← messages (app s) !! i; Some (displayedText m u).

Definition ana : User := demo_user_en.
Definition luc : User := mkUser "luc8h3n2q" "Luc" "fr" "Français".

(** ** The spec's scenarios *)

(** Ana's " hello " as Luc's bubble translates it, the provider answering
    " bonjour ". *)
Definition bonjour_trace : list Event :=
  demo_trace ++ [EvResolve 0 (GenResolved (Some " bonjour "))].

(** Spec section 8, first scenario.  Ana (English) sends "hello"; the
    store holds it with [translations = {en: "hello"}]; Luc (French)
    renders it, the translator is called once with ("hello", "fr"), and
    the message becomes [{en: "hello", fr: "bonjour"}]; Luc sees "bonjour",
    Ana still sees "hello". *)
Lemma scenario_hello_bonjour :
  cached_at (run translateText initialSession demo_trace) 1 "en" = Some "hello" /\
  cached_at (run translateText initialSession demo_trace) 1 "fr" = None /\
  (fun s => (fun r => (text (req_message r), req_language r)) <$> calls s)
    <$> run translateText initialSession bonjour_trace = Some [("hello", "fr")] /\
  (fun s => translations <$> messages (app s) !! 1)
    <$> run translateText initialSession bonjour_trace =
    Some (Some (<["fr" := "bonjour"]> {[ "en" := "hello" ]})) /\
  shown_to (run translateText initialSession bonjour_trace) 1 luc = Some "bonjour" /\
  shown_to (run translateText initialSession bonjour_trace) 1 ana = Some "hello".
Proof. split_and!; vm_compute; reflexivity. Qed.

(** Spec section 8, second scenario.  The provider call fails; the
    fallback "hello" is cached for French, Luc sees the original text, and
    a later render does not call the translator again. *)
Lemma scenario_failure_fallback :
  cached_at (run translateText initialSession (demo_trace ++ [EvResolve 0 GenRejected])) 1 "fr"
    = Some "hello" /\
  shown_to (run translateText initialSession (demo_trace ++ [EvResolve 0 GenRejected])) 1 luc
    = Some "hello" /\
  (fun s => length (calls s))
    <$> run translateText initialSession (demo_trace ++ [EvResolve 0 GenRejected; EvEffect 1])
    = Some 1.
Proof. split_and!; vm_compute; reflexivity. Qed.

(** The [i]-th bubble of the mounted ChatRoom. *)
Definition bubble_at (o : option Session) (i : nat) : option BubbleView :=
  s ← o;
  match renderApp s with
  | ShowChatRoom v => snd <$> bubbles v !! i
  | ShowJoinScreen _ => None
  end.

(** After the failure of the second scenario, Luc's bubble shows Ana's
    English text under the badge "Translated from EN". *)
Lemma fallback_labelled_translated :
  bubble_at (run translateText initialSession (demo_trace ++ [EvResolve 0 GenRejected])) 1 =
  Some (ChatBubble false (Some "Ana") 2 (BodyText "hello") (Some "Translated from EN")).
Proof. vm_compute. reflexivity. Qed.

(** ** Outside the settled executions *)

(** Luc leaves while his French translation is in flight; Dana (German)
    joins, her bubble translates Ana's message to German and the answer is
    cached. *)
Definition stale_trace : list Event :=
  demo_trace ++
  [EvLogout; EvTypeNickname "Dana"; EvSelectLanguage 4; EvSubmitJoin "dana7b6v5" 4;
   EvEffect 1; EvResolve 1 (GenResolved (Some "hallo"))].

(** An instance of [stale_writeback_erases]: when Luc's French call settles
    after he has left, [handleUpdateMessage] writes back the message as it
    was when Luc's call started: Dana's German entry disappears, and
    Dana's bubble calls the translator for (message, "de") a second time. *)
Lemma stale_trace_erases_translation :
  cached_at (run translateText initialSession stale_trace) 1 "de" = Some "hallo" /\
  cached_at (run translateText initialSession
               (stale_trace ++ [EvResolve 0 (GenResolved (Some "bonjour"))])) 1 "de" = None /\
  (fun s => call_key <$> calls s)
    <$> run translateText initialSession
          (stale_trace ++ [EvResolve 0 (GenResolved (Some "bonjour")); EvEffect 1]) =
    Some [("msg-abc123def", "fr"); ("msg-abc123def", "de"); ("msg-abc123def", "de")].
Proof. split_and!; vm_compute; reflexivity. Qed.

(** Luc leaves while his French translation is in flight and joins again,
    in French. *)
Definition rejoin_trace : list Event :=
  demo_trace ++ [EvLogout; EvTypeNickname "Luc"; EvSelectLanguage 3;
                 EvSubmitJoin "luc0z9y8x" 5; EvEffect 1].

(** An instance of [rejoin_repeats_call]: Luc's new bubble calls the
    translator for the same (message, "fr") pair a second time. *)
Lemma rejoin_trace_repeats_call :
  (fun s => call_key <$> calls s) <$> run translateText initialSession rejoin_trace =
    Some [("msg-abc123def", "fr"); ("msg-abc123def", "fr")].
Proof. vm_compute. reflexivity. Qed.

(** Ana sends two messages and [Math.random] repeats itself: both get the
    id "msg-abc123def".  Luc translates the second one. *)
Definition collision_trace : list Event :=
  [EvTypeNickname "Ana"; EvSelectLanguage 1; EvSubmitJoin "u1k2j3h4g" 1;
   EvTypeMessage "hello"; EvSubmitMessage "abc123def" 2;
   EvTypeMessage "bye"; EvSubmitMessage "abc123def" 3; EvLogout;
   EvTypeNickname "Luc"; EvSelectLanguage 3; EvSubmitJoin "luc8h3n2q" 4;
   EvEffect 2; EvResolve 0 (GenResolved (Some "au revoir"))].

(** When two messages share an id, the write-back of one message's
    translation replaces every message with that id: Ana's "hello" becomes
    "bye", so the spec's immutability of [text] rests on the ids being
    unique, which [Math.random] does not guarantee. *)
Lemma duplicate_id_overwrites_text :
  (fun s => text <$> messages (app s)) <$> run translateText initialSession (take 12 collision_trace) =
    Some ["Ana joined the chat!"; "hello"; "bye"; "Luc joined the chat!"] /\
  (fun s => text <$> messages (app s)) <$> run translateText initialSession collision_trace =
    Some ["Ana joined the chat!"; "bye"; "bye"; "Luc joined the chat!"].
Proof. split; vm_compute; reflexivity. Qed.

(** ** Witnesses *)

Definition demo_pre : Session :=
  default initialSession (run translateText initialSession (take 9 demo_trace)).

Definition bonjour_step : Event := EvResolve 0 (GenResolved (Some " bonjour ")).

Definition bonjour_state : Session :=
  default initialSession (step translateText demo_session bonjour_step).

Lemma demo_session_settled : settled_reachable translateText demo_session.
Proof. apply (run_settled_reachable translateText demo_trace). vm_compute. reflexivity. Qed.

Lemma bonjour_state_settled : settled_reachable translateText bonjour_state.
Proof. apply (run_settled_reachable translateText bonjour_trace). vm_compute. reflexivity. Qed.

Lemma same_language_never_translated_witness :
  originalLanguage (req_message (mkTranslationRequest 1 demo_hello "fr")) <> "fr" /\
  text (req_message (mkTranslationRequest 1 demo_hello "fr")) <> "".
Proof.
  apply (same_language_never_translated translateText demo_session);
    [apply demo_session_reachable|decide_by_eval].
Defined.

Lemma translating_flags_exact_witness :
  NoDup (current_ids demo_session) /\
  (forall i, i ∈ translating demo_session <-> i ∈ current_ids demo_session).
Proof. apply (translating_flags_exact translateText), demo_session_reachable. Defined.

Lemma messages_well_formed_witness :
  cache_nonempty demo_hello /\
  (senderId demo_hello <> SYSTEM_ID -> text demo_hello <> "" /\ self_translation_ok demo_hello).
Proof.
  apply (messages_well_formed translateText demo_session);
    [apply demo_session_reachable|decide_by_eval].
Defined.

Lemma canonical_log_append_only_witness :
  canonical <$> messages (app demo_session) `prefix_of` canonical <$> messages (app bonjour_state).
Proof.
  apply (canonical_log_append_only translateText demo_session bonjour_step).
  - apply settled_rtc_fresh, demo_session_settled.
  - vm_compute. exact I.
  - vm_compute. reflexivity.
Defined.

Lemma translator_called_at_most_once_witness : NoDup (call_key <$> calls bonjour_state).
Proof. apply (translator_called_at_most_once translateText), bonjour_state_settled. Defined.

Lemma cache_only_grows_witness :
  exists m', messages (app bonjour_state) !! 1 = Some m' /\
    canonical m' = canonical demo_hello /\ translations demo_hello ⊆ translations m'.
Proof.
  apply (cache_only_grows translateText demo_session bonjour_step bonjour_state).
  - apply demo_session_settled.
  - vm_compute. exact I.
  - vm_compute. exact I.
  - vm_compute. reflexivity.
  - vm_compute. reflexivity.
Defined.

Lemma resolve_refines_updateTranslation_witness :
  messages (app bonjour_state) =
  ConversationSpec.updateTranslation "msg-abc123def" "fr"
    (translateText "hello" "fr" (GenResolved (Some " bonjour "))) (messages (app demo_session)).
Proof.
  apply (resolve_refines_updateTranslation translateText demo_session 0
           (mkTranslationRequest 1 demo_hello "fr")).
  - apply demo_session_settled.
  - vm_compute. reflexivity.
  - vm_compute. reflexivity.
Defined.

Lemma translation_completes_witness :
  exists s', rtc (step_rel translateText) demo_pre s' /\
    exists m', messages (app s') !! 1 = Some m' /\
      translations m' !! "fr" = Some (translateText "hello" "fr" GenRejected) /\
      displayedText m' luc = translateText "hello" "fr" GenRejected /\
      needsTranslation m' luc = false.
Proof.
  apply (translation_completes translateText demo_pre luc 1 demo_hello GenRejected).
  - apply (run_reachable translateText (take 9 demo_trace)). vm_compute. reflexivity.
  - vm_compute. reflexivity.
  - vm_compute. reflexivity.
  - vm_compute. reflexivity.
  - decide_by_eval.
Defined.

Lemma languages_supported_witness : user_lang_ok luc.
Proof.
  apply (proj1 (languages_supported translateText demo_session demo_session_reachable)).
  vm_compute. reflexivity.
Defined.

Lemma calls_bounded_witness : length (calls bonjour_state) <= call_budget bonjour_state.
Proof. apply (proj2 (calls_bounded translateText bonjour_state bonjour_state_settled)). Defined.

Lemma environment_quiesces_witness : sn (env_step translateText) demo_session.
Proof. apply (environment_quiesces translateText), demo_session_settled. Defined.

Lemma pair_machine_simulation_witness :
  pair_trans (pair_state demo_session "msg-abc123def" "fr")
             (pair_state bonjour_state "msg-abc123def" "fr").
Proof.
  refine (proj1 (pair_machine_simulation translateText demo_session bonjour_step bonjour_state
                   demo_session_settled _ I _) _ _).
  - vm_compute. exact I.
  - vm_compute. reflexivity.
Defined.

Lemma select_language_roundtrip_witness :
  selected_indices (language_buttons (renderJoinScreen (selectLanguage 3 initialJoinScreen))) = [3].
Proof.
  apply (proj1 (select_language_roundtrip initialJoinScreen 3 (mkLanguageOption "fr" "Français" "🇫🇷")
                  ltac:(reflexivity))).
Defined.

Lemma pending_iff_in_flight_witness :
  exists v, renderApp demo_session = ShowChatRoom v /\
    bubbles v !! 1 =
    Some (msg_id demo_hello, renderBubble demo_hello luc
                               (bool_decide (msg_id demo_hello ∈ current_ids demo_session))).
Proof.
  destruct (pending_iff_in_flight translateText demo_session luc 1 demo_hello demo_session_reachable
              ltac:(vm_compute; reflexivity) ltac:(vm_compute; reflexivity)) as (v & Hv & Hb & _).
  eauto.
Defined.

Definition dana : User := mkUser "dana7b6v5" "Dana" "de" "Deutsch".

(** Luc's French call, in flight since [demo_session]. *)
Definition luc_call : TranslationRequest := mkTranslationRequest 1 demo_hello "fr".

(** Dana's German answer is cached; Luc's call is still in flight. *)
Definition stale_state : Session :=
  default initialSession (run translateText initialSession stale_trace).

Definition late_answer : GenerateOutcome := GenResolved (Some "bonjour").

Lemma stale_writeback_erases_witness :
  exists s1 s2 r, step translateText stale_state (EvResolve 0 late_answer) = Some s1 /\
    messages (app s1) !! 1 = Some (updatedMessage translateText luc_call late_answer) /\
    translations (updatedMessage translateText luc_call late_answer) !! language dana = None /\
    step translateText s1 (EvEffect 1) = Some s2 /\
    calls s2 = (calls stale_state ++ [r])%list /\
    call_key r = (msg_id (withTranslation demo_hello "de" "hallo"), language dana).
Proof.
  apply (stale_writeback_erases translateText stale_state 0 late_answer luc_call 1
           (withTranslation demo_hello "de" "hallo") dana).
  - apply (run_reachable translateText stale_trace). vm_compute. reflexivity.
  - vm_compute. reflexivity.
  - vm_compute. reflexivity.
  - vm_compute. reflexivity.
  - vm_compute. reflexivity.
  - eexists. vm_compute. reflexivity.
  - vm_compute. reflexivity.
  - decide_by_eval.
  - decide_by_eval.
  - decide_by_eval.
Defined.

Lemma rejoin_repeats_call_witness :
  exists s' r,
    run translateText demo_session
      [EvLogout; EvTypeNickname "Luc"; EvSelectLanguage 3; EvSubmitJoin "luc0z9y8x" 5; EvEffect 1]
      = Some s' /\
    luc_call ∈ inflight s' /\ calls s' = (calls demo_session ++ [r])%list /\
    call_key r = call_key luc_call.
Proof.
  apply (rejoin_repeats_call translateText demo_session luc 1 demo_hello luc_call 3
           (mkLanguageOption "fr" "Français" "🇫🇷") "Luc" "luc0z9y8x" 5).
  - vm_compute. reflexivity.
  - vm_compute. reflexivity.
  - vm_compute. reflexivity.
  - decide_by_eval.
  - vm_compute. reflexivity.
  - vm_compute. reflexivity.
  - reflexivity.
  - decide_by_eval.
Defined.

(** Ana has joined and typed " hello ". *)
Definition typed_state : Session :=
  default initialSession (run translateText initialSession (take 4 demo_trace)).

Definition sent_state : Session :=
  default initialSession (step translateText typed_state (EvSubmitMessage "abc123def" 2)).

Lemma send_button_matches_submit_witness :
  exists v, renderApp typed_state = ShowChatRoom v /\
  if send_disabled v then messages (app sent_state) = messages (app typed_state) /\
                          chatForm sent_state = chatForm typed_state
  else messages (app sent_state) =
         (messages (app typed_state) ++ [newMessage ana (trim (input_value v)) "abc123def" 2])%list /\
       inputText (chatForm sent_state) = "".
Proof.
  apply (send_button_matches_submit translateText typed_state ana "abc123def" 2 sent_state);
    vm_compute; reflexivity.
Defined.

Lemma log_in_time_order_witness : Sorted N.le (timestamp <$> messages (app demo_session)).
Proof.
  apply (log_in_time_order translateText), (run_timed_reachable translateText demo_trace).
  vm_compute. reflexivity.
Defined.

Lemma all_messages_translated_witness :
  exists s', rtc (env_step translateText) demo_session s' /\ currentUser (app s') = Some luc /\
    inflight s' = [] /\ Forall (fun m => needsTranslation m luc = false) (messages (app s')).
Proof.
  apply (all_messages_translated translateText demo_session luc demo_session_settled).
  vm_compute. reflexivity.
Defined.
